(** * Verification of the weakai neuralnet gradient core

    A shallow embedding of [ConvGrowLayer] (the fractionally strided
    convolution wrapper) and of [Batcher] with its [gradientCache], and the
    properties stated about them.

    Go values are embedded as follows.
    - [int] is a 64-bit two's complement integer: a [Z] on which every
      arithmetic operation is followed by [GoInt.wrap]; [uint32] likewise
      with [GoInt.u32].
    - A run-time panic is the outcome [Panic]; code that can panic and that
      mutates memory lives in the state monad [M].
    - A [[]float64] is an address into a heap of arrays, so that two tensors
      built over one slice really share their elements.
    - [float64] itself is kept abstract ([Float64]): the code under study
      only copies, zeroes and adds such values. *)

From Stdlib Require Import ZArith Lia List.
From Stdlib.Strings Require Import Byte.
From stdpp Require Import base option list.

Local Open Scope Z_scope.

(** ** Go integers *)

Module GoInt.

Definition min_int : Z := - 2 ^ 63.
Definition max_int : Z := 2 ^ 63 - 1.

(** Reduction of a mathematical integer to the value an [int] holds. *)
Definition wrap (n : Z) : Z := (n + 2 ^ 63) mod 2 ^ 64 - 2 ^ 63.

Definition add (a b : Z) : Z := wrap (a + b).
Definition sub (a b : Z) : Z := wrap (a - b).
Definition mul (a b : Z) : Z := wrap (a * b).

(** [a / b] and [a % b] truncate toward zero and panic on a zero divisor
    ([None]). *)
Definition quot (a b : Z) : option Z :=
  if b =? 0 then None else Some (wrap (Z.quot a b)).
Definition rem (a b : Z) : option Z :=
  if b =? 0 then None else Some (Z.rem a b).

(** [uint32] values and the conversions the code performs. *)
Definition u32 (n : Z) : Z := n mod 2 ^ 32.
Definition u32_mul (a b : Z) : Z := u32 (a * b).

Definition in_range (n : Z) : Prop := min_int <= n <= max_int.

End GoInt.

(** ** Outcomes and the state monad *)

Inductive outcome (A : Type) : Type :=
| Ret (a : A)
| Panic.
Arguments Ret {A} a.
Arguments Panic {A}.

Definition M (S A : Type) : Type := S → outcome (A * S).

Definition ret {S A} (a : A) : M S A := λ s, Ret (a, s).
Definition bind {S A B} (m : M S A) (k : A → M S B) : M S B :=
  λ s, match m s with
       | Ret (a, s') => k a s'
       | Panic => Panic
       end.
Definition panic {S A} : M S A := λ _, Panic.
Definition get {S} : M S S := λ s, Ret (s, s).
Definition gets {S A} (f : S → A) : M S A := λ s, Ret (f s, s).
Definition put {S} (s : S) : M S unit := λ _, Ret (tt, s).
Definition modify {S} (f : S → S) : M S unit := λ s, Ret (tt, f s).

(** Lifting of a partial pure operation: [None] is a panic. *)
Definition lift {S A} (o : option A) : M S A :=
  match o with
  | Some a => ret a
  | None => panic
  end.

#[export] Instance M_ret {S} : MRet (M S) := λ A, @ret S A.
#[export] Instance M_bind {S} : MBind (M S) := λ A B k m, @bind S A B m k.

(** [for i := lo; count > 0; i++ { body i }], with the trip count already
    known: the loops of this code compare the counter with a bound that the
    body never changes. *)
Fixpoint for_upto {S} (n : nat) (i : Z) (body : Z → M S unit) : M S unit :=
  match n with
  | O => ret tt
  | Datatypes.S n' => body i ;; for_upto n' (i + 1) body
  end.

(** [for i := 0; i < hi; i++ { body i }] *)
Definition for_range {S} (hi : Z) (body : Z → M S unit) : M S unit :=
  for_upto (Z.to_nat hi) 0 body.

(** ** float64 *)

Class Float64 := {
  F : Type;
  fzero : F;
  fadd : F → F → F
}.

(** ** The heap of [[]float64] arrays *)

Definition loc := nat.

Abbreviation heap := (list (list F)).

Section Heap.
Context `{Float64}.

(** The elements a slice value denotes; a slice nobody allocated is the
    nil slice. *)
Definition slice_data (h : heap) (l : loc) : list F := default [] (h !! l).

(** [len(v)] *)
Definition slice_len (h : heap) (l : loc) : Z :=
  Z.of_nat (length (slice_data h l)).

(** [make([]float64, n)]: panics on a negative length. *)
Definition make_slice (n : Z) : M heap loc :=
  λ h, if n <? 0 then Panic
       else Ret (length h, h ++ [replicate (Z.to_nat n) fzero]).

(** [v[i]] *)
Definition slice_get (l : loc) (i : Z) : M heap F :=
  λ h, if i <? 0 then Panic
       else match slice_data h l !! Z.to_nat i with
            | Some v => Ret (v, h)
            | None => Panic
            end.

(** [v[i] = x] *)
Definition slice_set (l : loc) (i : Z) (x : F) : M heap unit :=
  λ h, if i <? 0 then Panic
       else if (Z.to_nat i <? length (slice_data h l))%nat
            then Ret (tt, <[l := <[Z.to_nat i := x]> (slice_data h l)]> h)
            else Panic.

End Heap.

(** ** Tensor3 *)

(** Modelled from the spec: the [Tensor3] type and its [NewTensor3], [Get]
    and [Set] are not among the files at hand.  A tensor is
    [{Width, Height, Depth, Data}] with [Data] a flat [[]float64], and
    element [(x,y,z)] is [Data[(y*Width+x)*Depth + z]]. *)
Record Tensor3 := {
  Width : Z;
  Height : Z;
  Depth : Z;
  Data : loc
}.

Section Tensor.
Context `{Float64}.

Definition flat_index (t : Tensor3) (x y z : Z) : Z :=
  GoInt.add (GoInt.mul (GoInt.add (GoInt.mul y (Width t)) x) (Depth t)) z.

Definition NewTensor3 (width height depth : Z) : M heap Tensor3 :=
  d ← make_slice (GoInt.mul (GoInt.mul width height) depth);
  mret {| Width := width; Height := height; Depth := depth; Data := d |}.

Definition Tensor3_Get (t : Tensor3) (x y z : Z) : M heap F :=
  slice_get (Data t) (flat_index t x y z).

Definition Tensor3_Set (t : Tensor3) (x y z : Z) (v : F) : M heap unit :=
  slice_set (Data t) (flat_index t x y z) v.

End Tensor.

(** ** The inner convolution layer *)

(** Go [error] values met by this code: the two ends of input that
    [binary.Read] reports, and whatever the inner layer's own coder
    reports. *)
Inductive error : Type :=
| EOF
| ErrUnexpectedEOF
| ErrConvLayer (code : nat).

Module ConvLayer.

(** The fields of [ConvLayer] that [ConvGrowLayer] reads. *)
Record t := {
  filters : list Tensor3;
  output : Tensor3;
  downstreamGradient : option Tensor3
}.

Section Methods.
Context `{Float64}.

(** Modelled from the spec: [ConvLayer.SetDownstreamGradient] is not
    among the files at hand; a layer's set-downstream-gradient "must
    reject a buffer whose length mismatches the expected output size",
    and otherwise views the buffer with the output's dimensions. *)
Definition SetDownstreamGradient (c : t) (v : loc) : M heap (bool * t) :=
  λ h, if slice_len h v =? slice_len h (Data (output c))
       then Ret ((true,
                  {| filters := filters c;
                     output := output c;
                     downstreamGradient :=
                       Some {| Width := Width (output c);
                               Height := Height (output c);
                               Depth := Depth (output c);
                               Data := v |} |}), h)
       else Ret ((false, c), h).
End Methods.

End ConvLayer.

(** [ConvParams]: the filter count, and the rest of the configuration,
    which only the inner layer's constructor looks at. *)
Record ConvParams (Cfg : Type) := {
  FilterCount : Z;
  convConfig : Cfg
}.
Arguments FilterCount {Cfg} _.
Arguments convConfig {Cfg} _.

(** The operations of the base convolution layer, an external collaborator
    of which only the contract matters here.  Serialization reads the layer
    and the heap; the other operations may allocate and write. *)
Class ConvLayerOps `{Float64} := {
  ConvConfig : Type;
  NewConvLayer : ConvParams ConvConfig → M heap ConvLayer.t;
  DeserializeConvLayer : list byte → M heap (error + ConvLayer.t);
  ConvLayer_Serialize : ConvLayer.t → heap → error + list byte;
  ConvLayer_PropagateForward : ConvLayer.t → M heap ConvLayer.t;
  ConvLayer_PropagateBackward : bool → ConvLayer.t → M heap ConvLayer.t
}.

(** ** ConvGrowLayer *)

Record ConvGrowParams (Cfg : Type) := {
  convParams : ConvParams Cfg;
  InverseStride : Z
}.
Arguments convParams {Cfg} _.
Arguments InverseStride {Cfg} _.

Record ConvGrowLayer := {
  output : Tensor3;
  downstream : option Tensor3;
  convLayer : ConvLayer.t;
  convDownstream : Tensor3;
  inverseStride : Z
}.

(** [binary.Write(&buf, binary.LittleEndian, v)] for a [uint32]. *)
Definition byte_of_Z (n : Z) : byte :=
  default x00 (Byte.of_N (Z.to_N (n mod 256))).
Definition Z_of_byte (b : byte) : Z := Z.of_N (Byte.to_N b).

Definition put_u32_le (v : Z) : list byte :=
  [byte_of_Z v; byte_of_Z (v / 2 ^ 8); byte_of_Z (v / 2 ^ 16);
   byte_of_Z (v / 2 ^ 24)].

(** [binary.Read(buf, binary.LittleEndian, &v)] for a [uint32]: the value
    and the unread rest of the buffer, [io.EOF] on an empty buffer and
    [io.ErrUnexpectedEOF] on one to three bytes. *)
Definition read_u32_le (data : list byte) : error + (Z * list byte) :=
  match data with
  | b0 :: b1 :: b2 :: b3 :: rest =>
      inr (Z_of_byte b0 + 2 ^ 8 * Z_of_byte b1 + 2 ^ 16 * Z_of_byte b2
           + 2 ^ 24 * Z_of_byte b3, rest)
  | [] => inl EOF
  | _ => inl ErrUnexpectedEOF
  end.

Section ConvGrow.
Context `{ConvLayerOps}.

Definition NewConvGrowLayer (p : ConvGrowParams ConvConfig)
  : M heap ConvGrowLayer :=
  let s := InverseStride p in
  let convParams' :=
    {| FilterCount := GoInt.mul (FilterCount (convParams p)) (GoInt.mul s s);
       convConfig := convConfig (convParams p) |} in
  cl ← NewConvLayer convParams';
  out ← NewTensor3 (GoInt.mul (Width (ConvLayer.output cl)) s)
                   (GoInt.mul (Height (ConvLayer.output cl)) s)
                   (FilterCount (convParams p));
  cd ← NewTensor3 (Width (ConvLayer.output cl)) (Height (ConvLayer.output cl))
                  (Depth (ConvLayer.output cl));
  '(_, cl') ← ConvLayer.SetDownstreamGradient cl (Data cd);
  mret {| output := out; downstream := None; convLayer := cl';
          convDownstream := cd; inverseStride := s |}.

Definition DeserializeConvGrowLayer (data : list byte)
  : M heap (error + ConvGrowLayer) :=
  match read_u32_le data with
  | inl err => mret (inl err)
  | inr (s, rest) =>
      r ← DeserializeConvLayer rest;
      match r with
      | inl err => mret (inl err)
      | inr cl =>
          filterCount ←
            lift (GoInt.quot (Z.of_nat (length (ConvLayer.filters cl)))
                             (GoInt.u32_mul s s));
          out ← NewTensor3 (GoInt.mul (Width (ConvLayer.output cl)) s)
                           (GoInt.mul (Height (ConvLayer.output cl)) s)
                           filterCount;
          cd ← NewTensor3 (Width (ConvLayer.output cl))
                          (Height (ConvLayer.output cl))
                          (Depth (ConvLayer.output cl));
          '(_, cl') ← ConvLayer.SetDownstreamGradient cl (Data cd);
          mret (inr {| output := out; downstream := None; convLayer := cl';
                       convDownstream := cd; inverseStride := s |})
      end
  end.

(** The copy loops of [PropagateForward], after the inner layer's pass. *)
Definition remap_forward (c : ConvGrowLayer) : M heap unit :=
  let s := inverseStride c in
  for_range (Height (output c)) (λ y,
    internalY ← lift (GoInt.quot y s);
    for_range (Width (output c)) (λ x,
      internalX ← lift (GoInt.quot x s);
      xm ← lift (GoInt.rem x s);
      ym ← lift (GoInt.rem y s);
      let internalOffset :=
        GoInt.mul (GoInt.add xm (GoInt.mul s ym)) (Depth (output c)) in
      for_range (Depth (output c)) (λ z,
        val ← Tensor3_Get (ConvLayer.output (convLayer c))
                          internalX internalY (GoInt.add internalOffset z);
        Tensor3_Set (output c) x y z val))).

Definition with_convLayer (c : ConvGrowLayer) (cl : ConvLayer.t)
  : ConvGrowLayer :=
  {| output := output c; downstream := downstream c; convLayer := cl;
     convDownstream := convDownstream c; inverseStride := inverseStride c |}.

Definition PropagateForward (c : ConvGrowLayer) : M heap ConvGrowLayer :=
  cl ← ConvLayer_PropagateForward (convLayer c);
  let c' := with_convLayer c cl in
  remap_forward c';; mret c'.

(** The scatter loops of [PropagateBackward], before the inner layer's
    pass.  [c.downstream] is a nil pointer until a gradient buffer is
    set, and reading through it panics. *)
Definition scatter_backward (c : ConvGrowLayer) : M heap unit :=
  let s := inverseStride c in
  for_range (Height (output c)) (λ y,
    internalY ← lift (GoInt.quot y s);
    for_range (Width (output c)) (λ x,
      internalX ← lift (GoInt.quot x s);
      xm ← lift (GoInt.rem x s);
      ym ← lift (GoInt.rem y s);
      let internalOffset :=
        GoInt.mul (GoInt.add xm (GoInt.mul s ym)) (Depth (output c)) in
      for_range (Depth (output c)) (λ z,
        ds ← lift (downstream c);
        val ← Tensor3_Get ds x y z;
        Tensor3_Set (convDownstream c) internalX internalY
                    (GoInt.add internalOffset z) val))).

Definition PropagateBackward (upstream : bool) (c : ConvGrowLayer)
  : M heap ConvGrowLayer :=
  scatter_backward c;;
  cl ← ConvLayer_PropagateBackward upstream (convLayer c);
  mret (with_convLayer c cl).

Definition SetDownstreamGradient (c : ConvGrowLayer) (v : loc)
  : M heap (bool * ConvGrowLayer) :=
  λ h, if negb (slice_len h v =? slice_len h (Data (output c)))
       then Ret ((false, c), h)
       else Ret ((true,
                  {| output := output c;
                     downstream :=
                       Some {| Width := Width (output c);
                               Height := Height (output c);
                               Depth := Depth (output c);
                               Data := v |};
                     convLayer := convLayer c;
                     convDownstream := convDownstream c;
                     inverseStride := inverseStride c |}), h).

(** [Serialize] reads the layer and writes into a buffer of its own. *)
Definition Serialize (c : ConvGrowLayer) (h : heap) : error + list byte :=
  let buf := put_u32_le (GoInt.u32 (inverseStride c)) in
  match ConvLayer_Serialize (convLayer c) h with
  | inl err => inl err
  | inr serialized => inr (buf ++ serialized)
  end.

(** [Output()] *)
Definition Output (c : ConvGrowLayer) : loc := Data (output c).

(** [DownstreamGradient()]: [c.downstream.Data], which dereferences a nil
    pointer ([None]) until a gradient buffer is set. *)
Definition DownstreamGradient (c : ConvGrowLayer) : option loc :=
  Data <$> downstream c.


End ConvGrow.

(** ** Gradient buffers *)

(** An [autofunc.Gradient] (and likewise an [autofunc.RGradient]) is a Go
    map, hence a reference: the pools and the Batcher hold addresses into a
    store of such objects. *)
Definition gloc := nat.

Inductive mutex := GradsLock | RGradsLock.

(** What the trace records: mutex operations, and the creation and the
    zeroing of gradient buffers. *)
Inductive event :=
| Locked (m : mutex)
| Unlocked (m : mutex)
| Created (g : gloc)
| Zeroed (g : gloc).

Record gradientCache := {
  gradsLock : bool;
  rgradsLock : bool;
  variables : list nat;
  gradients : list gloc;
  rGradients : list gloc
}.

(** Modelled from the spec: the autofunc and linalg packages are libraries
    outside this repository.  A gradient buffer holds one vector per
    trainable-parameter handle, "sized to the fixed parameter list"; a
    handle is represented by the length of its vector.  A fresh buffer is
    "zero-initialized", [Zero] "zero[es] its contents", and [Add] is the
    elementwise sum. *)
Abbreviation Gradient := (list (list F)).

Section Gradients.
Context `{Float64}.

Definition zero_gradient (vars : list nat) : Gradient :=
  (λ n, replicate n fzero) <$> vars.

Definition zeroed (g : Gradient) : Gradient :=
  fmap (M := list) (λ _ : F, fzero) <$> g.

Definition vector_add (v v1 : list F) : list F := zip_with fadd v v1.

Definition gradient_add (g g1 : Gradient) : Gradient :=
  zip_with vector_add g g1.

Definition all_zero (g : Gradient) : Prop :=
  ∀ (i j : nat) (x : F), g !! i ≫= (.!! j) = Some x → x = fzero.

(** The memory the cache and the Batcher work on. *)
Record state := {
  store : list Gradient;
  cache : gradientCache;
  trace : list event
}.

Definition set_store (f : list Gradient → list Gradient) (σ : state) : state :=
  {| store := f (store σ); cache := cache σ; trace := trace σ |}.
Definition set_cache (f : gradientCache → gradientCache) (σ : state) : state :=
  {| store := store σ; cache := f (cache σ); trace := trace σ |}.
Definition log (e : event) (σ : state) : state :=
  {| store := store σ; cache := cache σ; trace := trace σ ++ [e] |}.

Definition set_lock (m : mutex) (v : bool) (g : gradientCache)
  : gradientCache :=
  match m with
  | GradsLock =>
      {| gradsLock := v; rgradsLock := rgradsLock g;
         variables := variables g; gradients := gradients g;
         rGradients := rGradients g |}
  | RGradsLock =>
      {| gradsLock := gradsLock g; rgradsLock := v;
         variables := variables g; gradients := gradients g;
         rGradients := rGradients g |}
  end.
Definition lock_held (m : mutex) (g : gradientCache) : bool :=
  match m with
  | GradsLock => gradsLock g
  | RGradsLock => rgradsLock g
  end.
Definition set_gradients (p : list gloc) (g : gradientCache) : gradientCache :=
  {| gradsLock := gradsLock g; rgradsLock := rgradsLock g;
     variables := variables g; gradients := p; rGradients := rGradients g |}.
Definition set_rGradients (p : list gloc) (g : gradientCache)
  : gradientCache :=
  {| gradsLock := gradsLock g; rgradsLock := rgradsLock g;
     variables := variables g; gradients := gradients g; rGradients := p |}.

(** [sync.Mutex]: with a single thread of control, locking a held mutex
    never returns and unlocking a free one is a fatal error; both end the
    run. *)
Definition Lock (m : mutex) : M state unit :=
  λ σ, if lock_held m (cache σ) then Panic
       else Ret (tt, log (Locked m) (set_cache (set_lock m true) σ)).
Definition Unlock (m : mutex) : M state unit :=
  λ σ, if lock_held m (cache σ)
       then Ret (tt, log (Unlocked m) (set_cache (set_lock m false) σ))
       else Panic.

(** [autofunc.NewGradient(vars)] and [autofunc.NewRGradient(vars)] *)
Definition NewGradient (vars : list nat) : M state gloc :=
  λ σ, let l := length (store σ) in
       Ret (l, log (Created l)
                 (set_store (λ st, st ++ [zero_gradient vars]) σ)).

(** An in-place update of the buffer at an address. *)
Definition update_gradient (l : gloc) (f : Gradient → Gradient)
  : M state unit :=
  λ σ, match store σ !! l with
       | Some g => Ret (tt, set_store (λ st, <[l := f g]> st) σ)
       | None => Panic
       end.

Definition read_gradient (l : gloc) : M state Gradient :=
  λ σ, match store σ !! l with
       | Some g => Ret (g, σ)
       | None => Panic
       end.

(** [res.Zero()] *)
Definition Gradient_Zero (l : gloc) : M state unit :=
  update_gradient l zeroed;; modify (log (Zeroed l)).

(** [g.Add(g1)] *)
Definition Gradient_Add (l l1 : gloc) : M state unit :=
  g1 ← read_gradient l1;
  update_gradient l (λ g, gradient_add g g1).

(** [p[i]] on a pool *)
Definition pool_index (p : list gloc) (i : Z) : option gloc :=
  if i <? 0 then None else p !! Z.to_nat i.

(** [p[:n]] on a pool: panics unless [0 <= n <= len(p)] (the pools never
    have spare capacity beyond elements popped before, which the value of
    the slice does not show). *)
Definition pool_prefix (p : list gloc) (n : Z) : option (list gloc) :=
  if (n <? 0) || (Z.of_nat (length p) <? n) then None
  else Some (take (Z.to_nat n) p).

Definition Alloc : M state gloc :=
  Lock GradsLock;;
  g ← gets cache;
  if Z.of_nat (length (gradients g)) =? 0 then
    Unlock GradsLock;;
    NewGradient (variables g)
  else
    res ← lift (pool_index (gradients g) (Z.of_nat (length (gradients g)) - 1));
    p ← lift (pool_prefix (gradients g) (Z.of_nat (length (gradients g)) - 1));
    modify (set_cache (set_gradients p));;
    Unlock GradsLock;;
    Gradient_Zero res;;
    mret res.

Definition AllocR : M state gloc :=
  Lock RGradsLock;;
  g ← gets cache;
  if Z.of_nat (length (rGradients g)) =? 0 then
    Unlock RGradsLock;;
    NewGradient (variables g)
  else
    res ← lift (pool_index (rGradients g) (Z.of_nat (length (gradients g)) - 1));
    p ← lift (pool_prefix (rGradients g) (Z.of_nat (length (rGradients g)) - 1));
    modify (set_cache (set_rGradients p));;
    Unlock RGradsLock;;
    Gradient_Zero res;;
    mret res.

Definition Free (gr : gloc) : M state unit :=
  Lock GradsLock;;
  modify (set_cache (λ g, set_gradients (gradients g ++ [gr]) g));;
  Unlock GradsLock.

Definition FreeR (gr : gloc) : M state unit :=
  Lock RGradsLock;;
  modify (set_cache (λ g, set_rGradients (rGradients g ++ [gr]) g));;
  Unlock RGradsLock.

Definition newGradientCache (vars : list nat) : gradientCache :=
  {| gradsLock := false; rgradsLock := false; variables := vars;
     gradients := []; rGradients := [] |}.

End Gradients.

(** ** Batcher *)

(** The learner and the cost function, external collaborators: the handles
    of the trainable parameters, and what one sample's forward pass, cost
    evaluation and gradient propagation (with seed 1, and seed 0 for the
    directional part) add into the buffers they are given.  They read the
    parameters and write nothing but those buffers. *)
Class LearnerOps `{Float64} := {
  Parameters : list nat;
  PropagateGradient : list F → list F → Gradient → Gradient;
  PropagateRGradient :
    Gradient → list F → list F → Gradient → Gradient → Gradient * Gradient
}.

(** A channel is represented by its buffer size alone. *)
Record chan := { capacity : Z }.

Record Batcher := {
  batchSize : Z;
  reqChan : option chan;
  respChan : option chan;
  lastGradResult : option gloc;
  lastGradRResult : option gloc
}.

Record batcherResponse := {
  RGrad : option gloc;
  Grad : gloc
}.

Section Batcher.
Context `{LearnerOps}.

Record SampleSet := {
  Inputs : list (list F);
  Outputs : list (list F)
}.

(** An [autofunc.RVector] is a map like a gradient; nil is [None]. *)
Record batcherRequest := {
  RV : option Gradient;
  Input : list F;
  Expected : list F
}.

Definition NewBatcher (batchSize : Z) : Batcher * state :=
  ({| batchSize := batchSize; reqChan := None; respChan := None;
      lastGradResult := None; lastGradRResult := None |},
   {| store := []; cache := newGradientCache Parameters; trace := [] |}).

(** The number of [go] statements executed is the state of [Start]. *)
Definition Start (gomaxprocs : Z) (b : Batcher) : M nat Batcher :=
  let routineCount := batchSize b in
  let routineCount :=
    if gomaxprocs <? routineCount then gomaxprocs else routineCount in
  if routineCount <? 2 then mret b
  else
    let reqChan := {| capacity := 0 |} in
    let respChan := {| capacity := routineCount |} in
    for_range (batchSize b) (λ _, modify Datatypes.S);;
    mret {| batchSize := batchSize b;
            reqChan := Some reqChan; respChan := Some respChan;
            lastGradResult := lastGradResult b;
            lastGradRResult := lastGradRResult b |}.

Definition Stop (b : Batcher) : Batcher :=
  match reqChan b with
  | Some _ =>
      {| batchSize := batchSize b; reqChan := None; respChan := None;
         lastGradResult := lastGradResult b;
         lastGradRResult := lastGradRResult b |}
  | None => b
  end.

Definition fulfillRequest (req : batcherRequest) : M state batcherResponse :=
  grad ← Alloc;
  match RV req with
  | Some rv =>
      rgrad ← AllocR;
      rg ← read_gradient rgrad;
      g ← read_gradient grad;
      let '(rg', g') :=
        PropagateRGradient rv (Input req) (Expected req) rg g in
      update_gradient rgrad (λ _, rg');;
      update_gradient grad (λ _, g');;
      mret {| RGrad := Some rgrad; Grad := grad |}
  | None =>
      update_gradient grad (PropagateGradient (Input req) (Expected req));;
      mret {| RGrad := None; Grad := grad |}
  end.

(** The loop of [batch] on the branch [b.reqChan == nil].  From the second
    sample on, [gradOut] holds the first response's buffer; [rgradOut]
    holds one exactly when [rv] is not nil, as does every response. *)
Fixpoint batch_loop (rv : option Gradient) (outputs inputs : list (list F))
    (i : nat) (gradOut rgradOut : option gloc)
  : M state (option gloc * option gloc) :=
  match inputs with
  | [] => mret (gradOut, rgradOut)
  | input :: rest =>
      expected ← lift (outputs !! i);
      resp ← fulfillRequest
               {| RV := rv; Input := input; Expected := expected |};
      '(gradOut', rgradOut') ←
        (if (i =? 0)%nat then mret (Some (Grad resp), RGrad resp)
         else
           g ← lift gradOut;
           Gradient_Add g (Grad resp);;
           Free (Grad resp);;
           match rgradOut with
           | Some rg =>
               r ← lift (RGrad resp);
               Gradient_Add rg r;;
               FreeR r
           | None => mret tt
           end;;
           mret (gradOut, rgradOut));
      batch_loop rv outputs rest (Datatypes.S i) gradOut' rgradOut'
  end.

(** [batch] for a Batcher without workers ([b.reqChan == nil]); the other
    branch hands the samples to the goroutines of [Start] and is not part
    of this sequential embedding. *)
Definition batch (rv : option Gradient) (s : SampleSet) (b : Batcher)
  : M state ((option gloc * option gloc) * Batcher) :=
  match lastGradResult b with
  | Some g => Free g
  | None => mret tt
  end;;
  match lastGradRResult b with
  | Some g => FreeR g
  | None => mret tt
  end;;
  '(gradOut, rgradOut) ← batch_loop rv (Outputs s) (Inputs s) 0 None None;
  mret ((gradOut, rgradOut),
        {| batchSize := batchSize b;
           reqChan := reqChan b; respChan := respChan b;
           lastGradResult := gradOut; lastGradRResult := rgradOut |}).

Definition BatchGradient (s : SampleSet) (b : Batcher)
  : M state (option gloc * Batcher) :=
  '((grad, _), b') ← batch None s b;
  mret (grad, b').

(** [BatchRGradient], for a Batcher without workers. *)
Definition BatchRGradient (v : option Gradient) (s : SampleSet) (b : Batcher)
  : M state ((option gloc * option gloc) * Batcher) :=
  batch v s b.

(** The gradient of one sample, as [fulfillRequest] leaves it in the
    buffer it returns. *)
Definition sample_gradient (input expected : list F) : Gradient :=
  PropagateGradient input expected (zero_gradient Parameters).

End Batcher.

(** ** Invariants of the data model *)

Section Invariants.
Context `{Float64}.

(** A tensor as every constructor makes it: its dimensions are
    non-negative [int]s and [len(Data) == Width*Height*Depth] (a length
    is itself an [int]). *)
Record tensor_wf (h : heap) (t : Tensor3) : Prop := {
  wf_width : 0 ≤ Width t ≤ GoInt.max_int;
  wf_height : 0 ≤ Height t ≤ GoInt.max_int;
  wf_depth : 0 ≤ Depth t ≤ GoInt.max_int;
  wf_len : slice_len h (Data t) = Width t * Height t * Depth t;
  wf_len_int : Width t * Height t * Depth t ≤ GoInt.max_int
}.

Definition valid_coord (t : Tensor3) (p : Z * Z * Z) : Prop :=
  let '(x, y, z) := p in
  0 ≤ x < Width t ∧ 0 ≤ y < Height t ∧ 0 ≤ z < Depth t.

(** The position of a coordinate in the flat data, as a number. *)
Definition flat_pos (t : Tensor3) (p : Z * Z * Z) : Z :=
  let '(x, y, z) := p in (y * Width t + x) * Depth t + z.

(** The element of a tensor at a coordinate, read off the heap. *)
Definition tensor_at (h : heap) (t : Tensor3) (p : Z * Z * Z) : option F :=
  slice_data h (Data t) !! Z.to_nat (flat_pos t p).

Definition same_shape (t u : Tensor3) : Prop :=
  Width t = Width u ∧ Height t = Height u ∧ Depth t = Depth u.

(** The upsampled grid [big] against the inner grid [small]: [s] times
    wider and higher, with [s*s] groups of [Depth big] channels per inner
    cell. *)
Record grow_shape (s : Z) (big small : Tensor3) : Prop := {
  gs_stride : 1 ≤ s;
  gs_width : Width big = Width small * s;
  gs_height : Height big = Height small * s;
  gs_depth : Depth small = s * s * Depth big
}.

(** The inner coordinate that an upsampled coordinate stands for, in the
    words of the layer's description: [FilterCount] is the depth of the
    upsampled grid. *)
Definition inner_coord (s filterCount : Z) (p : Z * Z * Z) : Z * Z * Z :=
  let '(x, y, z) := p in
  (x / s, y / s, ((x mod s) + s * (y mod s)) * filterCount + z).

(** The invariant of a [ConvGrowLayer] that its forward pass relies on. *)
Record ConvGrow_wf (h : heap) (c : ConvGrowLayer) : Prop := {
  cg_output : tensor_wf h (output c);
  cg_inner : tensor_wf h (ConvLayer.output (convLayer c));
  cg_shape :
    grow_shape (inverseStride c) (output c) (ConvLayer.output (convLayer c));
  cg_sep : Data (output c) ≠ Data (ConvLayer.output (convLayer c))
}.

(** What the backward pass relies on in addition: a downstream gradient
    has been set, shaped like the output, and the buffer handed to the
    inner layer is shaped like the inner output and is storage of its
    own. *)
Record ConvGrow_backward_wf (h : heap) (c : ConvGrowLayer) (ds : Tensor3)
  : Prop := {
  cb_downstream : downstream c = Some ds;
  cb_ds : tensor_wf h ds;
  cb_ds_shape : same_shape ds (output c);
  cb_cd : tensor_wf h (convDownstream c);
  cb_cd_shape :
    same_shape (convDownstream c) (ConvLayer.output (convLayer c));
  cb_sep_ds : Data (convDownstream c) ≠ Data ds;
  cb_sep_out : Data (convDownstream c) ≠ Data (output c)
}.

(** *** Loop invariants of the two passes *)

(** What the copy loops have achieved once the flat positions below [k]
    of the output are written: nothing but the output's storage has
    changed, and the written elements are the inner elements the mapping
    names. *)
Definition forward_inv (h0 : heap) (c : ConvGrowLayer) (k : Z) (h : heap)
  : Prop :=
  (∀ l, l ≠ Data (output c) → slice_data h l = slice_data h0 l) ∧
  length (slice_data h (Data (output c)))
    = length (slice_data h0 (Data (output c))) ∧
  ∀ p, valid_coord (output c) p → flat_pos (output c) p < k →
       tensor_at h (output c) p
       = tensor_at h0 (ConvLayer.output (convLayer c))
           (inner_coord (inverseStride c) (Depth (output c)) p).

(** What the scatter loops have achieved once the flat positions below
    [k] of the downstream gradient are done: nothing but the inner
    gradient buffer has changed, and each value read so far sits at the
    inner coordinate of its own. *)
Definition backward_inv (h0 : heap) (c : ConvGrowLayer) (ds : Tensor3)
    (k : Z) (h : heap) : Prop :=
  (∀ l, l ≠ Data (convDownstream c) → slice_data h l = slice_data h0 l) ∧
  length (slice_data h (Data (convDownstream c)))
    = length (slice_data h0 (Data (convDownstream c))) ∧
  ∀ p, valid_coord (output c) p → flat_pos (output c) p < k →
       tensor_at h (convDownstream c)
         (inner_coord (inverseStride c) (Depth (output c)) p)
       = tensor_at h0 ds p.

(** The layer that reads, as its inner output, the buffer the backward
    pass scatters into. *)
Definition reading_back (c : ConvGrowLayer) : ConvGrowLayer :=
  with_convLayer c
    {| ConvLayer.filters := ConvLayer.filters (convLayer c);
       ConvLayer.output := convDownstream c;
       ConvLayer.downstreamGradient :=
         ConvLayer.downstreamGradient (convLayer c) |}.

(** *** The contract of the inner layer's coder *)

(** The inner layer's coder round-trips on [cl]: decoding the bytes [ib]
    that [cl] serializes to gives, in the heap [h1], a layer [cl'] with
    as many filters and an output of the same shape, well formed and
    allocated, and [cl'] serializes to [ib] again, whatever its
    downstream-gradient slot holds and whatever is allocated later. *)
Record inner_roundtrip `{!ConvLayerOps} (cl : ConvLayer.t) (h : heap)
    (ib : list byte) (cl' : ConvLayer.t) (h1 : heap) : Prop := {
  rt_decode : DeserializeConvLayer ib h = Ret (inr cl', h1);
  rt_filters :
    length (ConvLayer.filters cl') = length (ConvLayer.filters cl);
  rt_shape : same_shape (ConvLayer.output cl') (ConvLayer.output cl);
  rt_wf : tensor_wf h1 (ConvLayer.output cl');
  rt_alloc : (Data (ConvLayer.output cl') < length h1)%nat;
  rt_encode :
    ∀ dg ext,
      ConvLayer_Serialize
        {| ConvLayer.filters := ConvLayer.filters cl';
           ConvLayer.output := ConvLayer.output cl';
           ConvLayer.downstreamGradient := dg |} (h1 ++ ext) = inr ib
}.

End Invariants.

(** ** Invariants of the Batcher and its cache *)

Section BatcherInvariants.
Context `{LearnerOps}.

(** The state between two operations of a Batcher, with [live] the
    buffers handed out and not yet freed: both locks are free, the cache
    sizes its buffers by the learner's parameters, no buffer is pooled
    twice or pooled while handed out, and every such buffer exists and
    has the shape of the parameter list. *)
Record batcher_inv (σ : state) (live : list gloc) : Prop := {
  bi_lock : gradsLock (cache σ) = false;
  bi_rlock : rgradsLock (cache σ) = false;
  bi_vars : variables (cache σ) = Parameters;
  bi_nodup : NoDup (live ++ gradients (cache σ));
  bi_shape :
    ∀ l, l ∈ live ++ gradients (cache σ) →
         ∃ g, store σ !! l = Some g ∧ zeroed g = zero_gradient Parameters
}.

(** The buffer a Batcher still holds from its last batch. *)
Definition held (b : Batcher) : list gloc := option_list (lastGradResult b).

(** A cache with both locks free, the given pools, and [k] buffers in the
    store. *)
Definition pools_are (σ : state) (pool rpool : list gloc) (k : nat) : Prop :=
  gradsLock (cache σ) = false ∧ rgradsLock (cache σ) = false ∧
  gradients (cache σ) = pool ∧ rGradients (cache σ) = rpool ∧
  length (store σ) = k.

(** The learner's gradients have the shape of its parameter list. *)
Definition gradients_fit : Prop :=
  ∀ input expected,
    zeroed (sample_gradient input expected) = zero_gradient Parameters.

End BatcherInvariants.

(** ** Concrete collaborators *)

(** Integers as sample values of [float64]: enough to tell elements apart
    and to add them. *)
Definition Z_float : Float64 := {| F := Z; fzero := 0; fadd := Z.add |}.

(** A minimal inner layer, whose configuration is just the size of its
    output grid: it has one output channel per filter, forward and backward
    passes that leave its buffers as they are, and a serialized form of
    three little-endian words (filter count, width, height). *)
Module MiniConv.

#[local] Existing Instance Z_float.

Definition filter : Tensor3 :=
  {| Width := 0; Height := 0; Depth := 0; Data := 0%nat |}.

Definition build (n w h : Z) : M heap ConvLayer.t :=
  if n <? 0 then panic
  else
    out ← NewTensor3 w h n;
    mret {| ConvLayer.filters := replicate (Z.to_nat n) filter;
            ConvLayer.output := out;
            ConvLayer.downstreamGradient := None |}.

Definition new (p : ConvParams (Z * Z)) : M heap ConvLayer.t :=
  build (FilterCount p) (fst (convConfig p)) (snd (convConfig p)).

Definition serialize (c : ConvLayer.t) (h : heap)
  : error + list byte :=
  inr (put_u32_le (Z.of_nat (length (ConvLayer.filters c)))
       ++ put_u32_le (Width (ConvLayer.output c))
       ++ put_u32_le (Height (ConvLayer.output c))).

Definition deserialize (data : list byte)
  : M heap (error + ConvLayer.t) :=
  match read_u32_le data with
  | inl _ => mret (inl (ErrConvLayer 0))
  | inr (n, rest) =>
      match read_u32_le rest with
      | inl _ => mret (inl (ErrConvLayer 1))
      | inr (w, rest') =>
          match read_u32_le rest' with
          | inl _ => mret (inl (ErrConvLayer 2))
          | inr (h, _) => c ← build n w h; mret (inr c)
          end
      end
  end.


Definition ops : ConvLayerOps :=
  {| ConvConfig := Z * Z;
     NewConvLayer := new;
     DeserializeConvLayer := deserialize;
     ConvLayer_Serialize := serialize;
     ConvLayer_PropagateForward := λ c, mret c;
     ConvLayer_PropagateBackward := λ _ c, mret c |}.

End MiniConv.

(** The grow layer of the worked example: inner output [2×2×4] at address
    1, stride 2, hence output [4×4×1], at address 0.  The inner cell
    [(0,0)] holds the channel groups 10, 20, 30, 40. *)
Definition example_inner : Tensor3 :=
  {| Width := 2; Height := 2; Depth := 4; Data := 1%nat |}.
Definition example_layer : ConvGrowLayer :=
  {| output := {| Width := 4; Height := 4; Depth := 1; Data := 0%nat |};
     downstream := None;
     convLayer :=
       {| ConvLayer.filters := replicate 4 MiniConv.filter;
          ConvLayer.output := example_inner;
          ConvLayer.downstreamGradient := None |};
     convDownstream := {| Width := 2; Height := 2; Depth := 4; Data := 2%nat |};
     inverseStride := 2 |}.
Definition example_heap : list (list Z) :=
  [replicate 16 0;
   [10; 20; 30; 40; 11; 21; 31; 41; 12; 22; 32; 42; 13; 23; 33; 43];
   replicate 16 0].

(** The same layer with a downstream gradient set, at address 3. *)
Definition example_downstream : Tensor3 :=
  {| Width := 4; Height := 4; Depth := 1; Data := 3%nat |}.
Definition example_backward_layer : ConvGrowLayer :=
  {| output := output example_layer;
     downstream := Some example_downstream;
     convLayer := convLayer example_layer;
     convDownstream := convDownstream example_layer;
     inverseStride := 2 |}.
Definition example_backward_heap : list (list Z) :=
  example_heap ++ [[1; 2; 3; 4; 5; 6; 7; 8; 9; 10; 11; 12; 13; 14; 15; 16]].

(** The grow layer with inverse stride 65536 and no filters that
    [NewConvGrowLayer] builds over a [1×1] inner grid in an empty memory:
    the inner output [1×1×0] is at address 0, the output [65536×65536×0] at
    address 1 and the inner gradient buffer at address 2. *)
Definition wide_stride_params : ConvGrowParams (Z * Z) :=
  {| convParams := {| FilterCount := 0; convConfig := (1, 1) |};
     InverseStride := 65536 |}.
Definition wide_stride_layer : ConvGrowLayer :=
  {| output := {| Width := 65536; Height := 65536; Depth := 0; Data := 1%nat |};
     downstream := None;
     convLayer :=
       {| ConvLayer.filters := [];
          ConvLayer.output :=
            {| Width := 1; Height := 1; Depth := 0; Data := 0%nat |};
          ConvLayer.downstreamGradient :=
            Some {| Width := 1; Height := 1; Depth := 0; Data := 2%nat |} |};
     convDownstream := {| Width := 1; Height := 1; Depth := 0; Data := 2%nat |};
     inverseStride := 65536 |}.
Definition wide_stride_heap : list (list Z) := [[]; []; []].

(** Cache states over two parameter handles, of lengths 2 and 1.  In the
    first the plain pool holds the one buffer there is.  In the second the
    R-gradient pool holds the one buffer and the plain pool is empty.  In
    the third the R-gradient pool holds buffers 0 and 1 and the plain pool
    holds buffer 2. *)
Definition cache_of (pool rpool : list gloc) : gradientCache :=
  {| gradsLock := false; rgradsLock := false; variables := [2%nat; 1%nat];
     gradients := pool; rGradients := rpool |}.
Definition pooled_state : @state Z_float :=
  @Build_state Z_float [[[5; 6]; [7]]] (cache_of [0%nat] []) [].
Definition rpooled_state : @state Z_float :=
  @Build_state Z_float [[[5; 6]; [7]]] (cache_of [] [0%nat]) [].
Definition rpooled_two_state : @state Z_float :=
  @Build_state Z_float [[[1; 2]; [3]]; [[4; 5]; [6]]; [[7; 8]; [9]]]
    (cache_of [2%nat] [0%nat; 1%nat]) [].

(** A Batcher made for batches of 8. *)
Definition batcher_of_8 : Batcher :=
  {| batchSize := 8; reqChan := None; respChan := None;
     lastGradResult := None; lastGradRResult := None |}.

(** A learner with two parameter handles, of lengths 2 and 1, whose
    gradient for a sample adds the first residual, input minus expected
    output, to every entry. *)
Module MiniLearner.

#[local] Existing Instance Z_float.

Definition residual (input expected : list Z) : Z :=
  hd 0 input - hd 0 expected.

Definition ops : LearnerOps :=
  {| Parameters := [2%nat; 1%nat];
     PropagateGradient := λ input expected g,
       fmap (M := list) (λ x, x + residual input expected) <$> g;
     PropagateRGradient := λ _ _ _ rg g, (rg, g) |}.

Definition samples : @SampleSet Z_float :=
  @Build_SampleSet Z_float [[5]; [7]; [20]] [[1]; [1]; [4]].

Definition no_samples : @SampleSet Z_float :=
  @Build_SampleSet Z_float [] [].

Definition short_samples : @SampleSet Z_float :=
  @Build_SampleSet Z_float [[5]; [7]; [20]] [[1]; [1]].

End MiniLearner.

(** The memory of the worked example with the values 1..16 in the inner
    gradient buffer (address 2), the buffer that the inner layer's
    [DownstreamGradient()] hands out. *)
Definition aliased_heap : list (list Z) :=
  [replicate 16 0;
   [10; 20; 30; 40; 11; 21; 31; 41; 12; 22; 32; 42; 13; 23; 33; 43];
   [1; 2; 3; 4; 5; 6; 7; 8; 9; 10; 11; 12; 13; 14; 15; 16]].

(** * Properties *)

(** ** Go integer arithmetic *)

Lemma wrap_id (n : Z) : GoInt.in_range n → GoInt.wrap n = n.
Proof.
  unfold GoInt.in_range, GoInt.min_int, GoInt.max_int, GoInt.wrap.
  intros Hn. rewrite Z.mod_small; lia.
Qed.

Lemma add_id (a b : Z) : GoInt.in_range (a + b) → GoInt.add a b = a + b.
Proof. apply wrap_id. Qed.

Lemma mul_id (a b : Z) : GoInt.in_range (a * b) → GoInt.mul a b = a * b.
Proof. apply wrap_id. Qed.

Lemma quot_nonneg (a b : Z) :
  0 ≤ a ≤ GoInt.max_int → 0 < b → GoInt.quot a b = Some (a / b).
Proof.
  intros Ha Hb. unfold GoInt.quot.
  destruct (Z.eqb_spec b 0) as [->|_]; [lia|].
  rewrite Z.quot_div_nonneg by lia.
  rewrite wrap_id; [done|].
  assert (0 ≤ a / b ≤ a).
  { split; [apply Z.div_pos; lia|]. apply Z.div_le_upper_bound; nia. }
  unfold GoInt.in_range, GoInt.min_int, GoInt.max_int in *. lia.
Qed.

Lemma rem_nonneg (a b : Z) :
  0 ≤ a → 0 < b → GoInt.rem a b = Some (a mod b).
Proof.
  intros Ha Hb. unfold GoInt.rem.
  destruct (Z.eqb_spec b 0) as [->|_]; [lia|].
  by rewrite Z.rem_mod_nonneg by lia.
Qed.

Lemma quot_defined (a b : Z) : b ≠ 0 → is_Some (GoInt.quot a b).
Proof. intros Hb. unfold GoInt.quot. destruct (Z.eqb_spec b 0); [done|eauto]. Qed.

Lemma rem_defined (a b : Z) : b ≠ 0 → is_Some (GoInt.rem a b).
Proof. intros Hb. unfold GoInt.rem. destruct (Z.eqb_spec b 0); [done|eauto]. Qed.

(** A digit and the digits above it are determined by the number. *)
Lemma radix_inj (n q r q' r' : Z) :
  0 ≤ r < n → 0 ≤ r' < n → q * n + r = q' * n + r' → q = q' ∧ r = r'.
Proof. intros Hr Hr' Heq. assert (q = q') by nia. subst. lia. Qed.

(** ** The state monad *)

Lemma bind_Ret {S A B} (m : M S A) (k : A → M S B) s a s' :
  m s = Ret (a, s') → (m ≫= k) s = k a s'.
Proof. intros Hm. unfold mbind, M_bind, bind. by rewrite Hm. Qed.

Lemma bind_Panic {S A B} (m : M S A) (k : A → M S B) s :
  m s = Panic → (m ≫= k) s = Panic.
Proof. intros Hm. unfold mbind, M_bind, bind. by rewrite Hm. Qed.


Lemma lift_Some {S A} (o : option A) (a : A) (s : S) :
  o = Some a → lift o s = Ret (a, s).
Proof. by intros ->. Qed.

(** Loop invariants: an invariant that every iteration re-establishes
    holds when the loop is over, and the loop does not panic. *)
Lemma for_upto_inv {S} (P : Z → S → Prop) (n : nat) (i : Z)
    (body : Z → M S unit) (s : S) :
  P i s →
  (∀ j t, i ≤ j < i + Z.of_nat n → P j t →
          ∃ t', body j t = Ret (tt, t') ∧ P (j + 1) t') →
  ∃ s', for_upto n i body s = Ret (tt, s') ∧ P (i + Z.of_nat n) s'.
Proof.
  revert i s. induction n as [|n IH]; intros i s HP Hstep.
  - exists s. split; [done|]. by replace (i + Z.of_nat 0) with i by lia.
  - destruct (Hstep i s) as (t & Hb & HP'); [lia|done|].
    destruct (IH (i + 1) t) as (s' & Hl & HP''); [done| |].
    { intros j u Hj. apply Hstep. lia. }
    exists s'. split.
    + simpl. by rewrite (bind_Ret _ _ _ _ _ Hb).
    + by replace (i + Z.of_nat (Datatypes.S n)) with (i + 1 + Z.of_nat n) by lia.
Qed.

Lemma for_range_inv {S} (P : Z → S → Prop) (hi : Z)
    (body : Z → M S unit) (s : S) :
  0 ≤ hi → P 0 s →
  (∀ j t, 0 ≤ j < hi → P j t → ∃ t', body j t = Ret (tt, t') ∧ P (j + 1) t') →
  ∃ s', for_range hi body s = Ret (tt, s') ∧ P hi s'.
Proof.
  intros Hhi HP Hstep. unfold for_range.
  destruct (for_upto_inv P (Z.to_nat hi) 0 body s) as (s' & Hl & HP').
  - done.
  - intros j t Hj. apply Hstep. lia.
  - exists s'. split; [done|]. by replace hi with (0 + Z.of_nat (Z.to_nat hi)) by lia.
Qed.

(** ** The heap and tensors *)

Section TensorFacts.
Context `{Float64}.

Lemma slice_data_insert (h : heap) (l l' : loc) (d : list F) :
  (l < length h)%nat →
  slice_data (<[l := d]> h) l' = if decide (l = l') then d else slice_data h l'.
Proof.
  intros Hl. unfold slice_data. destruct (decide (l = l')) as [<-|Hne].
  - by rewrite list_lookup_insert_eq.
  - by rewrite list_lookup_insert_ne.
Qed.

Lemma slice_allocated (h : heap) (l : loc) (i : nat) :
  (i < length (slice_data h l))%nat → (l < length h)%nat.
Proof.
  unfold slice_data. intros Hi. apply lookup_lt_is_Some.
  destruct (h !! l) eqn:Hl; [eauto|]. simpl in Hi. lia.
Qed.

Lemma flat_pos_bound (t : Tensor3) (p : Z * Z * Z) :
  0 ≤ Width t → 0 ≤ Height t → 0 ≤ Depth t → valid_coord t p →
  0 ≤ flat_pos t p < Width t * Height t * Depth t.
Proof.
  destruct p as [[x y] z]. unfold valid_coord, flat_pos.
  intros HW HH HD (Hx & Hy & Hz).
  assert (0 ≤ y * Width t + x < Width t * Height t) by nia.
  nia.
Qed.

Lemma flat_pos_inj (t : Tensor3) (p q : Z * Z * Z) :
  valid_coord t p → valid_coord t q → flat_pos t p = flat_pos t q → p = q.
Proof.
  destruct p as [[x y] z], q as [[x' y'] z']. unfold valid_coord, flat_pos.
  intros (Hx & Hy & Hz) (Hx' & Hy' & Hz') Heq.
  destruct (radix_inj (Depth t) _ z _ z' Hz Hz' Heq) as [Hxy ->].
  rewrite !(Z.add_comm _ x), !(Z.add_comm _ x') in Hxy.
  destruct (radix_inj (Width t) y x y' x') as [-> ->]; [done|done|lia|done].
Qed.

(** On a valid coordinate the index arithmetic of [Get] and [Set] does not
    wrap around. *)
Lemma flat_index_valid (h : heap) (t : Tensor3) (x y z : Z) :
  tensor_wf h t → valid_coord t (x, y, z) →
  flat_index t x y z = flat_pos t (x, y, z).
Proof.
  intros [HW HH HD _ Hint] Hv.
  pose proof (flat_pos_bound t (x, y, z) (proj1 HW) (proj1 HH) (proj1 HD) Hv)
    as Hb.
  destruct Hv as (Hx & Hy & Hz). unfold flat_index, flat_pos in *.
  assert (0 ≤ y * Width t + x < Width t * Height t) by nia.
  assert (Width t * Height t ≤ Width t * Height t * Depth t) by nia.
  assert (0 ≤ y * Width t ≤ y * Width t + x) by nia.
  unfold GoInt.max_int in *.
  rewrite (mul_id y) by (unfold GoInt.in_range, GoInt.min_int, GoInt.max_int; lia).
  rewrite (add_id (y * Width t)) by (unfold GoInt.in_range, GoInt.min_int, GoInt.max_int; lia).
  rewrite (mul_id (y * Width t + x)) by (unfold GoInt.in_range, GoInt.min_int, GoInt.max_int; nia).
  rewrite add_id by (unfold GoInt.in_range, GoInt.min_int, GoInt.max_int; nia).
  done.
Qed.

Lemma tensor_at_is_Some (h : heap) (t : Tensor3) (p : Z * Z * Z) :
  tensor_wf h t → valid_coord t p → is_Some (tensor_at h t p).
Proof.
  intros Hwf Hv. unfold tensor_at. apply lookup_lt_is_Some.
  pose proof (flat_pos_bound t p (proj1 (wf_width _ _ Hwf))
                (proj1 (wf_height _ _ Hwf)) (proj1 (wf_depth _ _ Hwf)) Hv).
  pose proof (wf_len _ _ Hwf) as Hlen. unfold slice_len in Hlen. lia.
Qed.

Lemma Tensor3_Get_valid (h : heap) (t : Tensor3) (x y z : Z) (v : F) :
  tensor_wf h t → valid_coord t (x, y, z) →
  tensor_at h t (x, y, z) = Some v →
  Tensor3_Get t x y z h = Ret (v, h).
Proof.
  intros Hwf Hv Hat. unfold Tensor3_Get, slice_get.
  rewrite (flat_index_valid h) by done.
  pose proof (flat_pos_bound t (x, y, z) (proj1 (wf_width _ _ Hwf))
                (proj1 (wf_height _ _ Hwf)) (proj1 (wf_depth _ _ Hwf)) Hv).
  destruct (Z.ltb_spec (flat_pos t (x, y, z)) 0); [lia|].
  unfold tensor_at in Hat. by rewrite Hat.
Qed.

Lemma Tensor3_Get_inv (h h' : heap) (t : Tensor3) (x y z : Z) (v : F) :
  tensor_wf h t → valid_coord t (x, y, z) →
  Tensor3_Get t x y z h = Ret (v, h') →
  tensor_at h t (x, y, z) = Some v ∧ h' = h.
Proof.
  intros Hwf Hv Hget.
  destruct (tensor_at_is_Some h t (x, y, z) Hwf Hv) as [w Hw].
  rewrite (Tensor3_Get_valid h t x y z w) in Hget by done.
  by simplify_eq.
Qed.

Lemma Tensor3_Set_valid (h : heap) (t : Tensor3) (x y z : Z) (v : F) :
  tensor_wf h t → valid_coord t (x, y, z) →
  Tensor3_Set t x y z v h =
    Ret (tt, <[Data t := <[Z.to_nat (flat_pos t (x, y, z)) := v]>
                            (slice_data h (Data t))]> h).
Proof.
  intros Hwf Hv. unfold Tensor3_Set, slice_set.
  rewrite (flat_index_valid h) by done.
  pose proof (flat_pos_bound t (x, y, z) (proj1 (wf_width _ _ Hwf))
                (proj1 (wf_height _ _ Hwf)) (proj1 (wf_depth _ _ Hwf)) Hv).
  pose proof (wf_len _ _ Hwf) as Hlen. unfold slice_len in Hlen.
  destruct (Z.ltb_spec (flat_pos t (x, y, z)) 0); [lia|].
  destruct (Nat.ltb_spec (Z.to_nat (flat_pos t (x, y, z)))
              (length (slice_data h (Data t)))); [done|lia].
Qed.

(** Tensors over storage that a heap update leaves alone. *)
Lemma tensor_wf_same_len (h h' : heap) (t : Tensor3) :
  length (slice_data h' (Data t)) = length (slice_data h (Data t)) →
  tensor_wf h t → tensor_wf h' t.
Proof.
  intros Hlen [HW HH HD Hl Hint]. split; try done.
  unfold slice_len in *. by rewrite Hlen.
Qed.

End TensorFacts.

(** ** The coordinate mapping of the grow layer *)

Section GrowCoordinates.
Context `{Float64}.
Variables (s : Z) (big small : Tensor3).
Hypothesis Hshape : grow_shape s big small.

Lemma inner_coord_valid (p : Z * Z * Z) :
  valid_coord big p → valid_coord small (inner_coord s (Depth big) p).
Proof.
  destruct Hshape as [Hs HW HH HD]. destruct p as [[x y] z].
  unfold valid_coord, inner_coord. intros (Hx & Hy & Hz).
  pose proof (Z.mod_pos_bound x s ltac:(lia)).
  pose proof (Z.mod_pos_bound y s ltac:(lia)).
  repeat split.
  - apply Z.div_pos; lia.
  - apply Z.div_lt_upper_bound; lia.
  - apply Z.div_pos; lia.
  - apply Z.div_lt_upper_bound; lia.
  - assert (0 ≤ s * (y mod s)) by (apply Z.mul_nonneg_nonneg; lia).
    apply Z.add_nonneg_nonneg; [apply Z.mul_nonneg_nonneg|]; lia.
  - rewrite HD.
    assert (s * (y mod s) ≤ s * (s - 1)) by (apply Z.mul_le_mono_nonneg_l; lia).
    assert (x mod s + s * (y mod s) ≤ s * s - 1) by lia.
    assert ((x mod s + s * (y mod s)) * Depth big ≤ (s * s - 1) * Depth big)
      by (apply Z.mul_le_mono_nonneg_r; lia).
    lia.
Qed.

Lemma inner_coord_inj (p q : Z * Z * Z) :
  valid_coord big p → valid_coord big q →
  inner_coord s (Depth big) p = inner_coord s (Depth big) q → p = q.
Proof.
  destruct Hshape as [Hs HW HH HD].
  destruct p as [[x y] z], q as [[x' y'] z'].
  unfold valid_coord, inner_coord. intros (Hx & Hy & Hz) (Hx' & Hy' & Hz') Heq.
  injection Heq as Hdx Hdy Hoff.
  destruct (radix_inj (Depth big) _ z _ z' Hz Hz' Hoff) as [Hsub ->].
  pose proof (Z.mod_pos_bound x s ltac:(lia)) as Hmx.
  pose proof (Z.mod_pos_bound x' s ltac:(lia)) as Hmx'.
  rewrite !(Z.add_comm (_ mod _)), !(Z.mul_comm s) in Hsub.
  destruct (radix_inj s _ _ _ _ Hmx Hmx' Hsub) as [Hmy Hmx2].
  rewrite (Z.div_mod x s), (Z.div_mod x' s), (Z.div_mod y s),
    (Z.div_mod y' s) by lia.
  by rewrite Hdx, Hdy, Hmy, Hmx2.
Qed.

Lemma inner_coord_surj (q : Z * Z * Z) :
  valid_coord small q →
  ∃ p, valid_coord big p ∧ inner_coord s (Depth big) p = q.
Proof.
  destruct Hshape as [Hs HW HH HD]. destruct q as [[ix iy] iz].
  unfold valid_coord. intros (Hx & Hy & Hz).
  assert (0 < Depth big) as Hd by nia.
  set (g := iz / Depth big).
  assert (0 ≤ g < s * s) as Hg.
  { split; [apply Z.div_pos; lia|]. apply Z.div_lt_upper_bound; [lia|nia]. }
  pose proof (Z.mod_pos_bound iz (Depth big) Hd) as Hmz.
  pose proof (Z.mod_pos_bound g s ltac:(lia)) as Hmg.
  assert (0 ≤ g / s < s) as Hdg.
  { split; [apply Z.div_pos; lia|]. apply Z.div_lt_upper_bound; lia. }
  exists (ix * s + g mod s, iy * s + g / s, iz mod Depth big).
  split.
  - unfold valid_coord. nia.
  - unfold inner_coord.
    assert ((ix * s + g mod s) / s = ix) as ->.
    { symmetry. apply (Z.div_unique _ s ix (g mod s)); lia. }
    assert ((iy * s + g / s) / s = iy) as ->.
    { symmetry. apply (Z.div_unique _ s iy (g / s)); lia. }
    assert ((ix * s + g mod s) mod s = g mod s) as ->.
    { symmetry. apply (Z.mod_unique _ s ix (g mod s)); lia. }
    assert ((iy * s + g / s) mod s = g / s) as ->.
    { symmetry. apply (Z.mod_unique _ s iy (g / s)); lia. }
    f_equal.
    rewrite (Z.add_comm (g mod s)), <- (Z.div_mod g s) by lia.
    unfold g. rewrite (Z.mul_comm _ (Depth big)).
    symmetry. apply Z.div_mod. lia.
Qed.

(** The Go expressions of the loops compute the coordinate without
    wrap-around. *)
Lemma inner_offset_go (h : heap) (x y z : Z) :
  tensor_wf h small → valid_coord big (x, y, z) →
  GoInt.add
    (GoInt.mul (GoInt.add (x mod s) (GoInt.mul s (y mod s))) (Depth big)) z
  = (x mod s + s * (y mod s)) * Depth big + z.
Proof.
  intros Hwf Hv.
  pose proof (inner_coord_valid _ Hv) as (_ & _ & Hoff).
  destruct Hshape as [Hs HW HH HD]. destruct Hv as (Hx & Hy & Hz).
  pose proof (wf_depth _ _ Hwf) as Hd. unfold GoInt.max_int in Hd.
  pose proof (Z.mod_pos_bound x s ltac:(lia)).
  pose proof (Z.mod_pos_bound y s ltac:(lia)).
  assert (0 ≤ s * (y mod s) ≤ s * s - s) by nia.
  assert (s * s ≤ Depth small) by nia.
  assert (0 ≤ (x mod s + s * (y mod s)) * Depth big) by nia.
  rewrite (mul_id s)
    by (unfold GoInt.in_range, GoInt.min_int, GoInt.max_int; lia).
  rewrite (add_id (x mod s))
    by (unfold GoInt.in_range, GoInt.min_int, GoInt.max_int; lia).
  rewrite (mul_id (x mod s + s * (y mod s)))
    by (unfold GoInt.in_range, GoInt.min_int, GoInt.max_int; lia).
  rewrite add_id
    by (unfold GoInt.in_range, GoInt.min_int, GoInt.max_int; lia).
  done.
Qed.

End GrowCoordinates.

(** ** Forward propagation: the copy loops *)

Section Forward.
Context `{ConvLayerOps}.

Lemma forward_inv_wf (h0 h : heap) (c : ConvGrowLayer) (k : Z) :
  ConvGrow_wf h0 c → forward_inv h0 c k h → ConvGrow_wf h c.
Proof.
  intros [Hout Hinn Hsh Hsep] (Hother & Hlen & _). split; try done.
  - by apply (tensor_wf_same_len h0).
  - apply (tensor_wf_same_len h0); [|done]. by rewrite Hother.
Qed.

(** One execution of the innermost loop body. *)
Lemma forward_step (h0 h : heap) (c : ConvGrowLayer) (x y z : Z) :
  ConvGrow_wf h0 c →
  valid_coord (output c) (x, y, z) →
  forward_inv h0 c (flat_pos (output c) (x, y, z)) h →
  ∃ h',
    (val ← Tensor3_Get (ConvLayer.output (convLayer c))
             (x / inverseStride c) (y / inverseStride c)
             (GoInt.add
                (GoInt.mul
                   (GoInt.add (x mod inverseStride c)
                      (GoInt.mul (inverseStride c) (y mod inverseStride c)))
                   (Depth (output c))) z);
     Tensor3_Set (output c) x y z val) h = Ret (tt, h') ∧
    forward_inv h0 c (flat_pos (output c) (x, y, z) + 1) h'.
Proof.
  intros Hwf0 Hv Hinv.
  pose proof (forward_inv_wf _ _ _ _ Hwf0 Hinv) as [Hout Hinn Hsh Hsep].
  destruct Hinv as (Hother & Hlen & Hdone).
  rewrite (inner_offset_go _ _ _ Hsh h) by done.
  pose proof (inner_coord_valid _ _ _ Hsh _ Hv) as Hiv.
  destruct (tensor_at_is_Some h _ _ Hinn Hiv) as [v Hat].
  simpl in Hiv, Hat.
  rewrite (bind_Ret _ _ _ _ _ (Tensor3_Get_valid h _ _ _ _ v Hinn Hiv Hat)).
  rewrite Tensor3_Set_valid by done.
  eexists. split; [done|].
  pose proof (flat_pos_bound _ _ (proj1 (wf_width _ _ Hout))
                (proj1 (wf_height _ _ Hout)) (proj1 (wf_depth _ _ Hout)) Hv)
    as Hk.
  pose proof (wf_len _ _ Hout) as Hl. unfold slice_len in Hl.
  assert (Data (output c) < length h)%nat as Halloc.
  { apply (slice_allocated h _ (Z.to_nat (flat_pos (output c) (x, y, z)))). lia. }
  repeat split.
  - intros l Hne. rewrite slice_data_insert by done.
    rewrite decide_False by done. by apply Hother.
  - rewrite slice_data_insert by done. rewrite decide_True by done.
    by rewrite length_insert.
  - intros q Hq Hlt. unfold tensor_at at 1.
    rewrite slice_data_insert by done. rewrite decide_True by done.
    pose proof (flat_pos_bound _ _ (proj1 (wf_width _ _ Hout))
                  (proj1 (wf_height _ _ Hout)) (proj1 (wf_depth _ _ Hout)) Hq).
    destruct (decide (flat_pos (output c) q = flat_pos (output c) (x, y, z)))
      as [Heq|Hne].
    + apply flat_pos_inj in Heq as ->; [|done..].
      rewrite list_lookup_insert_eq by lia.
      unfold tensor_at in Hat. unfold tensor_at.
      rewrite <- Hat. unfold inner_coord.
      by rewrite (Hother (Data (ConvLayer.output (convLayer c)))).
    + rewrite list_lookup_insert_ne by lia.
      apply Hdone; [done|lia].
Qed.

Lemma forward_inv_eq (h0 h : heap) (c : ConvGrowLayer) (k k' : Z) :
  k = k' → forward_inv h0 c k h → forward_inv h0 c k' h.
Proof. by intros ->. Qed.

(** The copy loops run to completion and fill the whole output. *)
Lemma remap_forward_spec (h : heap) (c : ConvGrowLayer) :
  ConvGrow_wf h c →
  ∃ h', remap_forward c h = Ret (tt, h') ∧
        forward_inv h c
          (Width (output c) * Height (output c) * Depth (output c)) h'.
Proof.
  intros Hwf. pose proof Hwf as [Hout Hinn Hsh Hsep].
  pose proof (gs_stride _ _ _ Hsh) as Hs.
  pose proof (wf_width _ _ Hout) as HW.
  pose proof (wf_height _ _ Hout) as HH.
  pose proof (wf_depth _ _ Hout) as HD.
  unfold remap_forward.
  destruct (for_range_inv
              (λ y, forward_inv h c (flat_pos (output c) (0, y, 0)))
              (Height (output c))
              (λ y,
                 internalY ← lift (GoInt.quot y (inverseStride c));
                 for_range (Width (output c)) (λ x,
                   internalX ← lift (GoInt.quot x (inverseStride c));
                   xm ← lift (GoInt.rem x (inverseStride c));
                   ym ← lift (GoInt.rem y (inverseStride c));
                   for_range (Depth (output c)) (λ z,
                     val ← Tensor3_Get (ConvLayer.output (convLayer c))
                             internalX internalY
                             (GoInt.add
                                (GoInt.mul
                                   (GoInt.add xm
                                      (GoInt.mul (inverseStride c) ym))
                                   (Depth (output c))) z);
                     Tensor3_Set (output c) x y z val)))
              h) as (h' & Hrun & Hfin).
  - lia.
  - repeat split; [done..|].
    intros p Hp Hlt. exfalso.
    pose proof (flat_pos_bound _ _ (proj1 HW) (proj1 HH) (proj1 HD) Hp).
    simpl in Hlt. lia.
  - intros y t Hy Hinv.
    rewrite (bind_Ret _ _ _ _ _
               (lift_Some _ _ t (quot_nonneg y (inverseStride c)
                                   ltac:(lia) ltac:(lia)))).
    destruct (for_range_inv
                (λ x, forward_inv h c (flat_pos (output c) (x, y, 0)))
                (Width (output c))
                (λ x,
                   internalX ← lift (GoInt.quot x (inverseStride c));
                   xm ← lift (GoInt.rem x (inverseStride c));
                   ym ← lift (GoInt.rem y (inverseStride c));
                   for_range (Depth (output c)) (λ z,
                     val ← Tensor3_Get (ConvLayer.output (convLayer c))
                             internalX (y / inverseStride c)
                             (GoInt.add
                                (GoInt.mul
                                   (GoInt.add xm
                                      (GoInt.mul (inverseStride c) ym))
                                   (Depth (output c))) z);
                     Tensor3_Set (output c) x y z val))
                t) as (t' & Hrun & Hfin).
    + lia.
    + done.
    + intros x u Hx Hinvx.
      rewrite (bind_Ret _ _ _ _ _
                 (lift_Some _ _ u (quot_nonneg x (inverseStride c)
                                     ltac:(lia) ltac:(lia)))).
      rewrite (bind_Ret _ _ _ _ _
                 (lift_Some _ _ u (rem_nonneg x (inverseStride c)
                                     ltac:(lia) ltac:(lia)))).
      rewrite (bind_Ret _ _ _ _ _
                 (lift_Some _ _ u (rem_nonneg y (inverseStride c)
                                     ltac:(lia) ltac:(lia)))).
      destruct (for_range_inv
                  (λ z, forward_inv h c (flat_pos (output c) (x, y, z)))
                  (Depth (output c))
                  (λ z,
                     val ← Tensor3_Get (ConvLayer.output (convLayer c))
                             (x / inverseStride c) (y / inverseStride c)
                             (GoInt.add
                                (GoInt.mul
                                   (GoInt.add (x mod inverseStride c)
                                      (GoInt.mul (inverseStride c)
                                         (y mod inverseStride c)))
                                   (Depth (output c))) z);
                     Tensor3_Set (output c) x y z val)
                  u) as (u' & Hrunz & Hfinz).
      * lia.
      * done.
      * intros z w Hz Hinvz.
        destruct (forward_step h w c x y z) as (w' & Hstep & Hinv');
          [done|unfold valid_coord; lia|done|].
        exists w'. split; [done|].
        revert Hinv'. apply forward_inv_eq. simpl. lia.
      * exists u'. split; [done|].
        revert Hfinz. apply forward_inv_eq. simpl. lia.
    + exists t'. split; [done|].
      revert Hfin. apply forward_inv_eq. simpl. lia.
  - exists h'. split; [done|].
    revert Hfin. apply forward_inv_eq. simpl. lia.
Qed.

End Forward.

Section ForwardClaim.
Context `{ConvLayerOps}.

(** C1.  Let the inner layer's forward pass return, leaving a well-formed
    grow layer with inverse stride [s].  Then [PropagateForward] returns,
    and afterwards every valid output coordinate [(x,y,z)] holds the inner
    output's element at
    [(x / s, y / s, ((x mod s) + s*(y mod s))*FilterCount + z)], where
    [FilterCount] is the depth of the upsampled output. *)
Theorem PropagateForward_upsamples
    (c : ConvGrowLayer) (h h1 : heap) (cl : ConvLayer.t) :
  ConvLayer_PropagateForward (convLayer c) h = Ret (cl, h1) →
  ConvGrow_wf h1 (with_convLayer c cl) →
  ∃ h2,
    PropagateForward c h = Ret (with_convLayer c cl, h2) ∧
    ∀ x y z,
      0 ≤ x < Width (output c) → 0 ≤ y < Height (output c) →
      0 ≤ z < Depth (output c) →
      ∃ v,
        Tensor3_Get (output c) x y z h2 = Ret (v, h2) ∧
        Tensor3_Get (ConvLayer.output cl)
          (x / inverseStride c) (y / inverseStride c)
          (((x mod inverseStride c)
            + inverseStride c * (y mod inverseStride c))
           * Depth (output c) + z) h2
        = Ret (v, h2).
Proof.
  intros Hinner Hwf.
  destruct (remap_forward_spec h1 _ Hwf) as (h2 & Hrun & Hinv).
  exists h2. split.
  - unfold PropagateForward.
    rewrite (bind_Ret _ _ _ _ _ Hinner).
    by rewrite (bind_Ret _ _ _ _ _ Hrun).
  - intros x y z Hx Hy Hz.
    pose proof (forward_inv_wf _ _ _ _ Hwf Hinv) as [Hout Hinn Hsh Hsep].
    destruct Hinv as (Hother & Hlen & Hdone). simpl in *.
    assert (valid_coord (output c) (x, y, z)) as Hv by done.
    pose proof (inner_coord_valid _ _ _ Hsh _ Hv) as Hiv.
    destruct (tensor_at_is_Some h2 _ _ Hout Hv) as [v Hat].
    exists v. split.
    + by apply Tensor3_Get_valid.
    + apply Tensor3_Get_valid; [done..|].
      rewrite <- Hat. rewrite (Hdone (x, y, z)); [|done|].
      * unfold tensor_at, inner_coord. by rewrite Hother.
      * pose proof (flat_pos_bound _ _ (proj1 (wf_width _ _ Hout))
                      (proj1 (wf_height _ _ Hout))
                      (proj1 (wf_depth _ _ Hout)) Hv).
        lia.
Qed.

End ForwardClaim.

(** The worked example of C1: with the inner output [2×2×4], one filter and
    stride 2, the channel groups 10, 20, 30, 40 of the inner cell [(0,0)]
    appear at the outputs [(0,0)], [(1,0)], [(0,1)] and [(1,1)]. *)
Lemma PropagateForward_upsamples_example :
  ∃ h2 : list (list Z),
    @PropagateForward Z_float MiniConv.ops example_layer example_heap
      = Ret (example_layer, h2) ∧
    @Tensor3_Get Z_float (output example_layer) 0 0 0 h2 = Ret (10, h2) ∧
    @Tensor3_Get Z_float (output example_layer) 1 0 0 h2 = Ret (20, h2) ∧
    @Tensor3_Get Z_float (output example_layer) 0 1 0 h2 = Ret (30, h2) ∧
    @Tensor3_Get Z_float (output example_layer) 1 1 0 h2 = Ret (40, h2).
Proof.
  destruct (@PropagateForward_upsamples Z_float MiniConv.ops
              example_layer example_heap example_heap
              (convLayer example_layer))
    as (h2 & Hrun & Hall).
  - reflexivity.
  - split; [split; simpl; unfold GoInt.max_int; try lia; reflexivity ..
           | split; simpl; lia | simpl; lia].
  - exists h2. split; [exact Hrun|].
    assert (∀ x y z v,
              0 ≤ x < 4 → 0 ≤ y < 4 → 0 ≤ z < 1 →
              @Tensor3_Get Z_float example_inner (x / 2) (y / 2)
                ((x mod 2 + 2 * (y mod 2)) * 1 + z) h2 = Ret (v, h2) →
              @Tensor3_Get Z_float (output example_layer) x y z h2
                = Ret (v, h2)) as Hcell.
    { intros x y z v Hx Hy Hz Hin.
      destruct (Hall x y z Hx Hy Hz) as (w & Hout & Hin').
      simpl in Hin'. rewrite Hin in Hin'.
    injection Hin' as Hvw. rewrite Hvw. exact Hout. }
    vm_compute in Hrun. injection Hrun as <-.
    repeat split; apply Hcell; try lia; reflexivity.
Defined.

(** ** Backward propagation: the scatter loops *)

Section Backward.
Context `{ConvLayerOps}.

Lemma grow_shape_same (s : Z) (big small small' : Tensor3) :
  same_shape small' small → grow_shape s big small → grow_shape s big small'.
Proof.
  intros (HW & HH & HD) [Hs HgW HgH HgD]. split; [done|congruence..].
Qed.

Lemma valid_coord_same (t u : Tensor3) (p : Z * Z * Z) :
  same_shape t u → valid_coord u p → valid_coord t p.
Proof.
  destruct p as [[x y] z]. unfold valid_coord.
  by intros (-> & -> & ->).
Qed.

Lemma flat_pos_same (t u : Tensor3) (p : Z * Z * Z) :
  same_shape t u → flat_pos t p = flat_pos u p.
Proof.
  destruct p as [[x y] z]. unfold flat_pos. by intros (-> & _ & ->).
Qed.

Lemma backward_inv_eq (h0 h : heap) (c : ConvGrowLayer) (ds : Tensor3)
    (k k' : Z) :
  k = k' → backward_inv h0 c ds k h → backward_inv h0 c ds k' h.
Proof. by intros ->. Qed.

Lemma backward_inv_wf (h0 h : heap) (c : ConvGrowLayer) (ds : Tensor3)
    (k : Z) :
  ConvGrow_backward_wf h0 c ds → backward_inv h0 c ds k h →
  tensor_wf h ds ∧ tensor_wf h (convDownstream c).
Proof.
  intros [_ Hds _ Hcd _ Hsep _] (Hother & Hlen & _). split.
  - apply (tensor_wf_same_len h0); [|done]. rewrite Hother; [done|].
    congruence.
  - by apply (tensor_wf_same_len h0).
Qed.

(** One execution of the innermost loop body. *)
Lemma backward_step (h0 h : heap) (c : ConvGrowLayer) (ds : Tensor3)
    (x y z : Z) :
  ConvGrow_wf h0 c → ConvGrow_backward_wf h0 c ds →
  valid_coord (output c) (x, y, z) →
  backward_inv h0 c ds (flat_pos (output c) (x, y, z)) h →
  ∃ h',
    (d ← lift (downstream c);
     val ← Tensor3_Get d x y z;
     Tensor3_Set (convDownstream c)
       (x / inverseStride c) (y / inverseStride c)
       (GoInt.add
          (GoInt.mul
             (GoInt.add (x mod inverseStride c)
                (GoInt.mul (inverseStride c) (y mod inverseStride c)))
             (Depth (output c))) z) val) h = Ret (tt, h') ∧
    backward_inv h0 c ds (flat_pos (output c) (x, y, z) + 1) h'.
Proof.
  intros Hwf0 Hbwf Hv Hinv.
  destruct (backward_inv_wf _ _ _ _ _ Hbwf Hinv) as [Hds Hcd].
  pose proof Hbwf as [Hdown _ Hdsh _ Hcsh Hsep _].
  pose proof (grow_shape_same _ _ _ _ Hcsh (cg_shape _ _ Hwf0)) as Hsh.
  destruct Hinv as (Hother & Hlen & Hdone).
  rewrite (bind_Ret _ _ _ _ _ (lift_Some _ _ h Hdown)).
  pose proof (valid_coord_same _ _ _ Hdsh Hv) as Hvd.
  destruct (tensor_at_is_Some h _ _ Hds Hvd) as [v Hat].
  rewrite (bind_Ret _ _ _ _ _ (Tensor3_Get_valid h _ _ _ _ v Hds Hvd Hat)).
  rewrite (inner_offset_go _ _ _ Hsh h) by done.
  pose proof (inner_coord_valid _ _ _ Hsh _ Hv) as Hiv.
  rewrite (Tensor3_Set_valid h (convDownstream c)
             (x / inverseStride c) (y / inverseStride c)
             ((x mod inverseStride c
               + inverseStride c * (y mod inverseStride c))
              * Depth (output c) + z) v Hcd Hiv).
  eexists. split; [done|].
  pose proof (flat_pos_bound _ _ (proj1 (wf_width _ _ Hcd))
                (proj1 (wf_height _ _ Hcd)) (proj1 (wf_depth _ _ Hcd)) Hiv)
    as Hk.
  pose proof (wf_len _ _ Hcd) as Hl. unfold slice_len in Hl.
  change (x / inverseStride c, y / inverseStride c,
          (x mod inverseStride c
           + inverseStride c * (y mod inverseStride c))
          * Depth (output c) + z)
    with (inner_coord (inverseStride c) (Depth (output c)) (x, y, z)).
  set (m := flat_pos (convDownstream c)
              (inner_coord (inverseStride c) (Depth (output c)) (x, y, z)))
    in *.
  assert (Data (convDownstream c) < length h)%nat as Halloc.
  { apply (slice_allocated h _ (Z.to_nat m)). lia. }
  repeat split.
  - intros l Hne. rewrite slice_data_insert by done.
    rewrite decide_False by done. by apply Hother.
  - rewrite slice_data_insert by done. rewrite decide_True by done.
    by rewrite length_insert.
  - intros q Hq Hlt. unfold tensor_at at 1.
    rewrite slice_data_insert by done. rewrite decide_True by done.
    pose proof (inner_coord_valid _ _ _ Hsh _ Hq) as Hiq.
    pose proof (flat_pos_bound _ _ (proj1 (wf_width _ _ Hcd))
                  (proj1 (wf_height _ _ Hcd)) (proj1 (wf_depth _ _ Hcd)) Hiq).
    destruct (decide (q = (x, y, z))) as [->|Hne].
    + rewrite list_lookup_insert_eq by lia.
      rewrite <- Hat. unfold tensor_at.
      rewrite (Hother (Data ds)); [done|]. congruence.
    + assert (flat_pos (convDownstream c)
                (inner_coord (inverseStride c) (Depth (output c)) q) ≠ m)
        as Hpos.
      { intros Heq. apply Hne.
        apply (inner_coord_inj _ _ _ Hsh); [done..|].
        by apply (flat_pos_inj (convDownstream c)). }
      rewrite list_lookup_insert_ne by lia.
      apply Hdone; [done|].
      assert (flat_pos (output c) q ≠ flat_pos (output c) (x, y, z)).
      { intros Heq. apply Hne. by apply (flat_pos_inj (output c)). }
      lia.
Qed.

(** The scatter loops run to completion over the whole gradient. *)
Lemma scatter_backward_spec (h : heap) (c : ConvGrowLayer) (ds : Tensor3) :
  ConvGrow_wf h c → ConvGrow_backward_wf h c ds →
  ∃ h', scatter_backward c h = Ret (tt, h') ∧
        backward_inv h c ds
          (Width (output c) * Height (output c) * Depth (output c)) h'.
Proof.
  intros Hwf Hbwf. pose proof Hwf as [Hout Hinn Hsh Hsep].
  pose proof (gs_stride _ _ _ Hsh) as Hs.
  pose proof (wf_width _ _ Hout) as HW.
  pose proof (wf_height _ _ Hout) as HH.
  pose proof (wf_depth _ _ Hout) as HD.
  unfold scatter_backward.
  destruct (for_range_inv
              (λ y, backward_inv h c ds (flat_pos (output c) (0, y, 0)))
              (Height (output c))
              (λ y,
                 internalY ← lift (GoInt.quot y (inverseStride c));
                 for_range (Width (output c)) (λ x,
                   internalX ← lift (GoInt.quot x (inverseStride c));
                   xm ← lift (GoInt.rem x (inverseStride c));
                   ym ← lift (GoInt.rem y (inverseStride c));
                   for_range (Depth (output c)) (λ z,
                     d ← lift (downstream c);
                     val ← Tensor3_Get d x y z;
                     Tensor3_Set (convDownstream c) internalX internalY
                       (GoInt.add
                          (GoInt.mul
                             (GoInt.add xm (GoInt.mul (inverseStride c) ym))
                             (Depth (output c))) z) val)))
              h) as (h' & Hrun & Hfin).
  - lia.
  - repeat split; [done..|].
    intros p Hp Hlt. exfalso.
    pose proof (flat_pos_bound _ _ (proj1 HW) (proj1 HH) (proj1 HD) Hp).
    simpl in Hlt. lia.
  - intros y t Hy Hinv.
    rewrite (bind_Ret _ _ _ _ _
               (lift_Some _ _ t (quot_nonneg y (inverseStride c)
                                   ltac:(lia) ltac:(lia)))).
    destruct (for_range_inv
                (λ x, backward_inv h c ds (flat_pos (output c) (x, y, 0)))
                (Width (output c))
                (λ x,
                   internalX ← lift (GoInt.quot x (inverseStride c));
                   xm ← lift (GoInt.rem x (inverseStride c));
                   ym ← lift (GoInt.rem y (inverseStride c));
                   for_range (Depth (output c)) (λ z,
                     d ← lift (downstream c);
                     val ← Tensor3_Get d x y z;
                     Tensor3_Set (convDownstream c) internalX
                       (y / inverseStride c)
                       (GoInt.add
                          (GoInt.mul
                             (GoInt.add xm (GoInt.mul (inverseStride c) ym))
                             (Depth (output c))) z) val))
                t) as (t' & Hrunx & Hfinx).
    + lia.
    + done.
    + intros x u Hx Hinvx.
      rewrite (bind_Ret _ _ _ _ _
                 (lift_Some _ _ u (quot_nonneg x (inverseStride c)
                                     ltac:(lia) ltac:(lia)))).
      rewrite (bind_Ret _ _ _ _ _
                 (lift_Some _ _ u (rem_nonneg x (inverseStride c)
                                     ltac:(lia) ltac:(lia)))).
      rewrite (bind_Ret _ _ _ _ _
                 (lift_Some _ _ u (rem_nonneg y (inverseStride c)
                                     ltac:(lia) ltac:(lia)))).
      destruct (for_range_inv
                  (λ z, backward_inv h c ds (flat_pos (output c) (x, y, z)))
                  (Depth (output c))
                  (λ z,
                     d ← lift (downstream c);
                     val ← Tensor3_Get d x y z;
                     Tensor3_Set (convDownstream c)
                       (x / inverseStride c) (y / inverseStride c)
                       (GoInt.add
                          (GoInt.mul
                             (GoInt.add (x mod inverseStride c)
                                (GoInt.mul (inverseStride c)
                                   (y mod inverseStride c)))
                             (Depth (output c))) z) val)
                  u) as (u' & Hrunz & Hfinz).
      * lia.
      * done.
      * intros z w Hz Hinvz.
        destruct (backward_step h w c ds x y z) as (w' & Hstep & Hinv');
          [done|done|unfold valid_coord; lia|done|].
        exists w'. split; [done|].
        revert Hinv'. apply backward_inv_eq. simpl. lia.
      * exists u'. split; [done|].
        revert Hfinz. apply backward_inv_eq. simpl. lia.
    + exists t'. split; [done|].
      revert Hfinx. apply backward_inv_eq. simpl. lia.
  - exists h'. split; [done|].
    revert Hfin. apply backward_inv_eq. simpl. lia.
Qed.

End Backward.

Section BackwardClaim.
Context `{ConvLayerOps}.

(** C2, as the code has it.  On a well-formed grow layer with a downstream
    gradient [ds] whose storage is not the inner gradient buffer's, the
    coordinate mapping is a bijection from the coordinates of the
    upsampled grid onto those of the inner grid.  The scatter loops of
    [PropagateBackward] return, the inner layer's pass then starts from
    the memory they leave, each value [ds(x,y,z)] is then found at the
    inner coordinate [(x/s, y/s, ((x mod s) + s*(y mod s))*FilterCount + z)]
    of the inner gradient buffer, none overwritten by another, and the
    copy loops of the forward pass, reading that buffer, give every value
    back at its own coordinate. *)
Theorem PropagateBackward_scatter_bijective
    (c : ConvGrowLayer) (ds : Tensor3) (h : heap) :
  ConvGrow_wf h c → ConvGrow_backward_wf h c ds →
  let s := inverseStride c in
  let fc := Depth (output c) in
  (∀ p, valid_coord (output c) p →
        valid_coord (convDownstream c) (inner_coord s fc p)) ∧
  (∀ p q, valid_coord (output c) p → valid_coord (output c) q →
          inner_coord s fc p = inner_coord s fc q → p = q) ∧
  (∀ q, valid_coord (convDownstream c) q →
        ∃ p, valid_coord (output c) p ∧ inner_coord s fc p = q) ∧
  ∃ h',
    scatter_backward c h = Ret (tt, h') ∧
    (∀ upstream,
       PropagateBackward upstream c h
       = (cl ← ConvLayer_PropagateBackward upstream (convLayer c);
          mret (with_convLayer c cl)) h') ∧
    (∀ x y z,
       0 ≤ x < Width (output c) → 0 ≤ y < Height (output c) →
       0 ≤ z < Depth (output c) →
       ∃ v,
         Tensor3_Get ds x y z h = Ret (v, h) ∧
         Tensor3_Get (convDownstream c) (x / s) (y / s)
           (((x mod s) + s * (y mod s)) * fc + z) h' = Ret (v, h')) ∧
    ∃ h'',
      remap_forward (reading_back c) h' = Ret (tt, h'') ∧
      ∀ x y z,
        0 ≤ x < Width (output c) → 0 ≤ y < Height (output c) →
        0 ≤ z < Depth (output c) →
        ∃ v,
          Tensor3_Get ds x y z h = Ret (v, h) ∧
          Tensor3_Get (output c) x y z h'' = Ret (v, h'').
Proof.
  intros Hwf Hbwf s fc.
  pose proof Hwf as [Hout Hinn Hsh0 Hsep0].
  pose proof Hbwf as [Hdown Hds Hdsh Hcd Hcsh Hsepd Hsepo].
  pose proof (grow_shape_same _ _ _ _ Hcsh Hsh0) as Hsh.
  split; [|split; [|split]].
  - intros p. apply (inner_coord_valid _ _ _ Hsh).
  - intros p q. apply (inner_coord_inj _ _ _ Hsh).
  - intros q. apply (inner_coord_surj _ _ _ Hsh).
  - destruct (scatter_backward_spec h c ds Hwf Hbwf) as (h' & Hrun & Hinv).
    exists h'. split; [done|]. split.
    { intros upstream. unfold PropagateBackward.
      by rewrite (bind_Ret _ _ _ _ _ Hrun). }
    destruct (backward_inv_wf _ _ _ _ _ Hbwf Hinv) as [Hds' Hcd'].
    pose proof Hinv as (Hother & Hlen & Hdone).
    assert (∀ p, valid_coord (output c) p →
                 tensor_at h' (convDownstream c) (inner_coord s fc p)
                 = tensor_at h ds p) as Hall.
    { intros p Hp. apply Hdone; [done|].
      pose proof (flat_pos_bound _ _ (proj1 (wf_width _ _ Hout))
                    (proj1 (wf_height _ _ Hout))
                    (proj1 (wf_depth _ _ Hout)) Hp).
      lia. }
    split.
    { intros x y z Hx Hy Hz.
      assert (valid_coord (output c) (x, y, z)) as Hv by done.
      pose proof (valid_coord_same _ _ _ Hdsh Hv) as Hvd.
      destruct (tensor_at_is_Some h _ _ Hds Hvd) as [v Hat].
      exists v. split; [by apply Tensor3_Get_valid|].
      apply Tensor3_Get_valid; [done| |].
      - apply (inner_coord_valid _ _ _ Hsh _ Hv).
      - rewrite <- Hat. apply (Hall (x, y, z) Hv). }
    assert (ConvGrow_wf h' (reading_back c)) as Hwf'.
    { split; simpl; [|done|done|congruence].
      apply (tensor_wf_same_len h); [|done].
      rewrite Hother; [done|congruence]. }
    destruct (remap_forward_spec h' _ Hwf') as (h'' & Hrun' & Hinv').
    exists h''. split; [done|].
    intros x y z Hx Hy Hz.
    assert (valid_coord (output c) (x, y, z)) as Hv by done.
    pose proof (valid_coord_same _ _ _ Hdsh Hv) as Hvd.
    destruct (tensor_at_is_Some h _ _ Hds Hvd) as [v Hat].
    exists v. split; [by apply Tensor3_Get_valid|].
    pose proof (forward_inv_wf _ _ _ _ Hwf' Hinv') as [Hout'' _ _ _].
    destruct Hinv' as (_ & _ & Hdone'). simpl in Hdone', Hout''.
    apply Tensor3_Get_valid; [done..|].
    rewrite (Hdone' (x, y, z)); [|done|].
    + rewrite <- Hat. apply (Hall (x, y, z) Hv).
    + pose proof (flat_pos_bound _ _ (proj1 (wf_width _ _ Hout))
                    (proj1 (wf_height _ _ Hout))
                    (proj1 (wf_depth _ _ Hout)) Hv).
      lia.
Qed.

End BackwardClaim.

(** C2 on the worked example: the sixteen downstream values 1..16 land in
    the inner gradient buffer, one per element, grouped by inner cell. *)
Lemma PropagateBackward_scatter_example :
  ∃ h' : list (list Z),
    @scatter_backward Z_float example_backward_layer example_backward_heap
      = Ret (tt, h') ∧
    h' !! 2%nat
      = Some [1; 2; 5; 6; 3; 4; 7; 8; 9; 10; 13; 14; 11; 12; 15; 16] ∧
    ∃ h'',
      @remap_forward Z_float (reading_back example_backward_layer) h'
        = Ret (tt, h'') ∧
      h'' !! 0%nat = h' !! 3%nat.
Proof.
  destruct (@PropagateBackward_scatter_bijective Z_float MiniConv.ops
              example_backward_layer example_downstream
              example_backward_heap)
    as (_ & _ & _ & h' & Hrun & _ & _ & h'' & Hback & _).
  - split; [split; simpl; unfold GoInt.max_int; try lia; reflexivity ..
           | split; simpl; lia | simpl; lia].
  - split; [reflexivity
           | split; simpl; unfold GoInt.max_int; try lia; reflexivity
           | repeat split
           | split; simpl; unfold GoInt.max_int; try lia; reflexivity
           | repeat split
           | simpl; lia ..].
  - exists h'. split; [exact Hrun|].
    vm_compute in Hrun. injection Hrun as <-.
    split; [reflexivity|].
    exists h''. split; [exact Hback|].
    vm_compute in Hback. injection Hback as <-. reflexivity.
Defined.

(** C2 fails as stated, for a downstream gradient that is the inner
    gradient buffer itself: [SetDownstreamGradient] accepts it, the lengths
    being equal, and the scatter loops then read elements they have
    already overwritten.  The value 5 of the downstream gradient at
    [(0,1,0)] is not found at its inner coordinate [(0,0,2)], which holds
    3; the values 5, 6, 13 and 14 are lost. *)
Lemma PropagateBackward_scatter_aliased_loses_values :
  @ConvGrow_wf Z_float aliased_heap example_layer ∧
  ∃ (c' : ConvGrowLayer) (ds : Tensor3) (h' : list (list Z)),
    @SetDownstreamGradient Z_float example_layer
      (Data (convDownstream example_layer)) aliased_heap
      = Ret ((true, c'), aliased_heap) ∧
    downstream c' = Some ds ∧
    @scatter_backward Z_float c' aliased_heap = Ret (tt, h') ∧
    h' !! 2%nat
      = Some [1; 2; 3; 4; 3; 4; 7; 8; 9; 10; 11; 12; 11; 12; 15; 16] ∧
    @Tensor3_Get Z_float ds 0 1 0 aliased_heap = Ret (5, aliased_heap) ∧
    @Tensor3_Get Z_float (convDownstream c') (0 / 2) (1 / 2)
      ((0 mod 2 + 2 * (1 mod 2)) * 1 + 0) h' = Ret (3, h').
Proof.
  split.
  - split; [split; simpl; unfold GoInt.max_int; try lia; reflexivity ..
           | split; simpl; lia | simpl; lia].
  - eexists _, _, _. split; [by vm_compute|].
    split; [reflexivity|].
    split; [by vm_compute|].
    split; [reflexivity|]. split; by vm_compute.
Qed.

(** ** Setting the downstream gradient *)

Section SetDownstream.
Context `{ConvLayerOps}.

(** C9.  [SetDownstreamGradient] never panics and never touches the heap.
    It answers [false] exactly when the buffer's length differs from the
    length of the output's flat data, and then the layer is as before;
    otherwise it answers [true] and the downstream-gradient tensor is the
    buffer, viewed with the output's dimensions.  The outcome is a
    boolean, not an [error]. *)
Theorem SetDownstreamGradient_checks_length
    (c : ConvGrowLayer) (v : loc) (h : heap) :
  ∃ (ok : bool) (c' : ConvGrowLayer),
    SetDownstreamGradient c v h = Ret ((ok, c'), h) ∧
    (ok = false ↔ slice_len h v ≠ slice_len h (Data (output c))) ∧
    (ok = false → c' = c) ∧
    (ok = true →
     downstream c' =
       Some {| Width := Width (output c); Height := Height (output c);
               Depth := Depth (output c); Data := v |} ∧
     output c' = output c ∧ convLayer c' = convLayer c ∧
     convDownstream c' = convDownstream c ∧
     inverseStride c' = inverseStride c).
Proof.
  unfold SetDownstreamGradient.
  destruct (Z.eqb_spec (slice_len h v) (slice_len h (Data (output c))))
    as [Heq|Hne]; simpl.
  - eexists true, _. split; [done|]. split; [|done]. split; done.
  - exists false, c. split; [done|]. split; [|done]. split; done.
Qed.

End SetDownstream.

(** ** Deserialization with a zero stride *)

Section ZeroStride.
Context `{ConvLayerOps}.

(** C10.  On an input whose stride field reads 0 and whose remaining
    bytes the inner layer's decoder accepts, [DeserializeConvGrowLayer]
    returns neither a decoding error nor a layer: the division of the
    inner filter count by [inverseStride*inverseStride = 0] panics. *)
Theorem DeserializeConvGrowLayer_zero_stride_panics
    (data payload : list byte) (cl : ConvLayer.t) (h h1 : heap) :
  read_u32_le data = inr (0, payload) →
  DeserializeConvLayer payload h = Ret (inr cl, h1) →
  DeserializeConvGrowLayer data h = Panic.
Proof.
  intros Hstride Hinner. unfold DeserializeConvGrowLayer.
  rewrite Hstride. by rewrite (bind_Ret _ _ _ _ _ Hinner).
Qed.

End ZeroStride.

(** C10 on four zero bytes followed by the serialized form of a [2×2]
    inner layer with four filters. *)
Lemma DeserializeConvGrowLayer_zero_stride_example :
  @DeserializeConvGrowLayer Z_float MiniConv.ops
    ([x00; x00; x00; x00]
     ++ put_u32_le 4 ++ put_u32_le 2 ++ put_u32_le 2) [] = Panic.
Proof.
  eapply (@DeserializeConvGrowLayer_zero_stride_panics Z_float MiniConv.ops);
    reflexivity.
Defined.

(** ** Construction *)

Section Construction.
Context `{ConvLayerOps}.

Lemma make_slice_Ret (n : Z) (h : heap) :
  0 ≤ n →
  make_slice n h = Ret (length h, h ++ [replicate (Z.to_nat n) fzero]).
Proof.
  intros Hn. unfold make_slice. by destruct (Z.ltb_spec n 0); [lia|].
Qed.

Lemma NewTensor3_Ret (w h' d : Z) (h : heap) :
  0 ≤ GoInt.mul (GoInt.mul w h') d →
  NewTensor3 w h' d h
  = Ret ({| Width := w; Height := h'; Depth := d; Data := length h |},
         h ++ [replicate (Z.to_nat (GoInt.mul (GoInt.mul w h') d)) fzero]).
Proof.
  intros Hn. unfold NewTensor3.
  by rewrite (bind_Ret _ _ _ _ _ (make_slice_Ret _ h Hn)).
Qed.

Lemma NewTensor3_Ret' {A} (w h' d : Z) (k : Tensor3 → M heap A) (h : heap) :
  0 ≤ GoInt.mul (GoInt.mul w h') d →
  (NewTensor3 w h' d ≫= k) h
  = k {| Width := w; Height := h'; Depth := d; Data := length h |}
      (h ++ [replicate (Z.to_nat (GoInt.mul (GoInt.mul w h') d)) fzero]).
Proof. intros Hn. by rewrite (bind_Ret _ _ _ _ _ (NewTensor3_Ret _ _ _ h Hn)). Qed.

Lemma slice_len_app_l (h ext : heap) (l : loc) :
  (l < length h)%nat → slice_len (h ++ ext) l = slice_len h l.
Proof.
  intros Hl. unfold slice_len, slice_data. by rewrite lookup_app_l.
Qed.

Lemma slice_len_fresh (h : heap) (d : list F) :
  slice_len (h ++ [d]) (length h) = Z.of_nat (length d).
Proof.
  unfold slice_len, slice_data. by rewrite list_lookup_middle.
Qed.

(** The size a well-formed tensor's dimensions multiply to in Go. *)
Lemma tensor_size_go (h : heap) (t : Tensor3) :
  tensor_wf h t →
  GoInt.mul (GoInt.mul (Width t) (Height t)) (Depth t)
  = Width t * Height t * Depth t.
Proof.
  intros [HW HH HD _ Hint]. unfold GoInt.max_int in *.
  destruct (decide (Depth t = 0)) as [->|Hd].
  - unfold GoInt.mul at 1. rewrite !Z.mul_0_r. done.
  - assert (0 ≤ Width t * Height t ≤ Width t * Height t * Depth t) by nia.
    rewrite (mul_id (Width t))
      by (unfold GoInt.in_range, GoInt.min_int, GoInt.max_int; lia).
    rewrite mul_id
      by (unfold GoInt.in_range, GoInt.min_int, GoInt.max_int; lia).
    done.
Qed.

(** A value written at a valid coordinate is the value read there. *)
Lemma Tensor3_Set_Get (h : heap) (t : Tensor3) (x y z : Z) (v : F) :
  tensor_wf h t → valid_coord t (x, y, z) →
  ∃ h', Tensor3_Set t x y z v h = Ret (tt, h') ∧
        Tensor3_Get t x y z h' = Ret (v, h').
Proof.
  intros Hwf Hv. rewrite (Tensor3_Set_valid h) by done.
  eexists. split; [done|].
  pose proof (flat_pos_bound _ _ (proj1 (wf_width _ _ Hwf))
                (proj1 (wf_height _ _ Hwf)) (proj1 (wf_depth _ _ Hwf)) Hv)
    as Hk.
  pose proof (wf_len _ _ Hwf) as Hl. unfold slice_len in Hl.
  assert (Data t < length h)%nat as Halloc.
  { apply (slice_allocated h _ (Z.to_nat (flat_pos t (x, y, z)))). lia. }
  apply Tensor3_Get_valid; [|done|].
  - apply (tensor_wf_same_len h); [|done].
    rewrite slice_data_insert by done. rewrite decide_True by done.
    by rewrite length_insert.
  - unfold tensor_at. rewrite slice_data_insert by done.
    rewrite decide_True by done. apply list_lookup_insert_eq. lia.
Qed.

(** C8.  Let [NewConvLayer], called with the base configuration and
    [FilterCount * (inverseStride * inverseStride)] filters, return an
    inner layer whose output tensor is well formed and allocated, and let
    the size of the upsampled output be a length [make] accepts.  Then
    [NewConvGrowLayer] returns a layer that wraps this inner layer, whose
    output is [inverseStride] times as wide and as high as the inner
    output (with Go's multiplication) and [FilterCount] deep, and whose
    inner layer has, as its downstream gradient, the tensor
    [convDownstream] itself: the same storage with the same shape.  The
    memory it leaves is the inner layer's, followed by two new arrays of
    zeros: the output's, as long as its dimensions multiply to, and the
    gradient buffer's, as long as the inner output's data.  So the buffer
    passes the inner layer's length check, and a value written through
    [convDownstream] is the value read through the inner layer's
    downstream gradient. *)
Theorem NewConvGrowLayer_shape
    (p : ConvGrowParams ConvConfig) (h h1 : heap) (cl : ConvLayer.t) :
  let s := InverseStride p in
  let fc := FilterCount (convParams p) in
  1 ≤ s →
  NewConvLayer {| FilterCount := GoInt.mul fc (GoInt.mul s s);
                  convConfig := convConfig (convParams p) |} h
    = Ret (cl, h1) →
  tensor_wf h1 (ConvLayer.output cl) →
  (Data (ConvLayer.output cl) < length h1)%nat →
  0 ≤ GoInt.mul
        (GoInt.mul (GoInt.mul (Width (ConvLayer.output cl)) s)
                   (GoInt.mul (Height (ConvLayer.output cl)) s)) fc →
  ∃ c h2,
    NewConvGrowLayer p h = Ret (c, h2) ∧
    Width (output c) = GoInt.mul (Width (ConvLayer.output (convLayer c))) s ∧
    Height (output c)
      = GoInt.mul (Height (ConvLayer.output (convLayer c))) s ∧
    Depth (output c) = fc ∧
    inverseStride c = s ∧
    ConvLayer.filters (convLayer c) = ConvLayer.filters cl ∧
    ConvLayer.output (convLayer c) = ConvLayer.output cl ∧
    same_shape (convDownstream c) (ConvLayer.output cl) ∧
    ConvLayer.downstreamGradient (convLayer c) = Some (convDownstream c) ∧
    Data (convDownstream c) ≠ Data (output c) ∧
    Data (convDownstream c) ≠ Data (ConvLayer.output cl) ∧
    h2 = h1 ++
         [replicate
            (Z.to_nat
               (GoInt.mul (GoInt.mul (Width (output c)) (Height (output c)))
                          (Depth (output c)))) fzero;
          replicate
            (Z.to_nat
               (Width (convDownstream c) * Height (convDownstream c)
                * Depth (convDownstream c))) fzero] ∧
    Data (output c) = length h1 ∧
    Data (convDownstream c) = Datatypes.S (length h1) ∧
    slice_len h2 (Data (output c))
      = GoInt.mul (GoInt.mul (Width (output c)) (Height (output c)))
                  (Depth (output c)) ∧
    tensor_wf h2 (convDownstream c) ∧
    slice_len h2 (Data (convDownstream c))
      = slice_len h2 (Data (ConvLayer.output cl)) ∧
    ∀ x y z v,
      valid_coord (convDownstream c) (x, y, z) →
      ∃ h3 t,
        ConvLayer.downstreamGradient (convLayer c) = Some t ∧
        Tensor3_Set (convDownstream c) x y z v h2 = Ret (tt, h3) ∧
        Tensor3_Get t x y z h3 = Ret (v, h3).
Proof.
  intros s fc Hs Hnew Hwf Halloc Hsize.
  unfold NewConvGrowLayer. fold s. fold fc.
  rewrite (bind_Ret _ _ _ _ _ Hnew).
  rewrite (bind_Ret _ _ _ _ _ (NewTensor3_Ret _ _ _ h1 Hsize)).
  pose proof (tensor_size_go h1 _ Hwf) as Hgo.
  pose proof (wf_len _ _ Hwf) as Hlen.
  assert (0 ≤ GoInt.mul
                (GoInt.mul (Width (ConvLayer.output cl))
                           (Height (ConvLayer.output cl)))
                (Depth (ConvLayer.output cl))) as Hsize'.
  { rewrite Hgo, <- Hlen. unfold slice_len. lia. }
  rewrite (bind_Ret _ _ _ _ _ (NewTensor3_Ret _ _ _ _ Hsize')).
  match goal with
  | |- context [ConvLayer.SetDownstreamGradient cl ?v] =>
      assert (∀ h', slice_len h' v = slice_len h' (Data (ConvLayer.output cl)) →
                    ConvLayer.SetDownstreamGradient cl v h'
                    = Ret ((true,
                            {| ConvLayer.filters := ConvLayer.filters cl;
                               ConvLayer.output := ConvLayer.output cl;
                               ConvLayer.downstreamGradient :=
                                 Some {| Width := Width (ConvLayer.output cl);
                                         Height := Height (ConvLayer.output cl);
                                         Depth := Depth (ConvLayer.output cl);
                                         Data := v |} |}), h')) as Hset
  end.
  { intros h' Heq. unfold ConvLayer.SetDownstreamGradient.
    by rewrite Heq, Z.eqb_refl. }
  set (out_data :=
         replicate
           (Z.to_nat
              (GoInt.mul
                 (GoInt.mul (GoInt.mul (Width (ConvLayer.output cl)) s)
                            (GoInt.mul (Height (ConvLayer.output cl)) s)) fc))
           fzero) in *.
  set (cd_data :=
         replicate
           (Z.to_nat
              (GoInt.mul
                 (GoInt.mul (Width (ConvLayer.output cl))
                            (Height (ConvLayer.output cl)))
                 (Depth (ConvLayer.output cl)))) fzero) in *.
  assert (slice_len ((h1 ++ [out_data]) ++ [cd_data])
            (length (h1 ++ [out_data]))
          = slice_len ((h1 ++ [out_data]) ++ [cd_data])
              (Data (ConvLayer.output cl))) as Hcheck.
  { rewrite slice_len_fresh. unfold cd_data. rewrite length_replicate.
    rewrite slice_len_app_l by (rewrite length_app; simpl; lia).
    rewrite slice_len_app_l by done.
    rewrite Hlen, Hgo. rewrite Hgo in Hsize'. lia. }
  erewrite bind_Ret; cycle 1.
  { apply Hset. exact Hcheck. }
  eexists _, _. split; [done|]. simpl.
  assert (tensor_wf ((h1 ++ [out_data]) ++ [cd_data])
            {| Width := Width (ConvLayer.output cl);
               Height := Height (ConvLayer.output cl);
               Depth := Depth (ConvLayer.output cl);
               Data := length (h1 ++ [out_data]) |}) as Hcdwf.
  { destruct Hwf as [HW HH HD Hl Hint]. split; simpl; try done.
    rewrite slice_len_fresh. unfold cd_data. rewrite length_replicate.
    rewrite Hgo. rewrite Hgo in Hsize'. lia. }
  rewrite !length_app. simpl.
  split; [done|]. split; [done|]. split; [done|]. split; [done|].
  split; [done|]. split; [done|]. split; [done|]. split; [done|].
  split; [lia|]. split; [lia|].
  split.
  { rewrite <- app_assoc. simpl. unfold out_data, cd_data. by rewrite Hgo. }
  split; [done|]. split; [lia|].
  split.
  { rewrite slice_len_app_l by (rewrite length_app; simpl; lia).
    rewrite slice_len_fresh. unfold out_data. rewrite length_replicate. lia. }
  split.
  { revert Hcdwf. rewrite length_app. simpl. done. }
  split.
  { revert Hcheck. rewrite length_app. simpl. done. }
  intros x y z v Hv.
  revert Hcdwf Hv. rewrite length_app. simpl. intros Hcdwf Hv.
  destruct (Tensor3_Set_Get _ _ x y z v Hcdwf Hv) as (h3 & Hset3 & Hget3).
  by eexists h3, _.
Qed.

End Construction.

(** C8 for one filter on a [2×2] inner grid with inverse stride 2: the
    layer of the worked example, with a [4×4×1] output over a [2×2×4]
    inner output, and two new arrays of sixteen zeros. *)
Lemma NewConvGrowLayer_shape_example :
  ∃ (c : ConvGrowLayer) (h2 : list (list Z)),
    @NewConvGrowLayer Z_float MiniConv.ops
      {| convParams := {| FilterCount := 1; convConfig := (2, 2) |};
         InverseStride := 2 |} [] = Ret (c, h2) ∧
    (Width (output c), Height (output c), Depth (output c)) = (4, 4, 1) ∧
    length (ConvLayer.filters (convLayer c)) = 4%nat ∧
    ConvLayer.downstreamGradient (convLayer c) = Some (convDownstream c) ∧
    h2 = [replicate 16 0; replicate 16 0; replicate 16 0] ∧
    Data (output c) = 1%nat ∧ Data (convDownstream c) = 2%nat.
Proof.
  destruct (@NewConvGrowLayer_shape Z_float MiniConv.ops
              {| convParams := {| FilterCount := 1; convConfig := (2, 2) |};
                 InverseStride := 2 |} [] [replicate 16 0]
              {| ConvLayer.filters := replicate 4 MiniConv.filter;
                 ConvLayer.output :=
                   {| Width := 2; Height := 2; Depth := 4; Data := 0%nat |};
                 ConvLayer.downstreamGradient := None |})
    as (c & h2 & Hrun & HW & HH & HD & _ & Hf & Ho & (HcW & HcH & HcD) & Hdg
        & _ & _ & Hmem & Hout & Hcd & _).
  - simpl. lia.
  - reflexivity.
  - split; simpl; unfold GoInt.max_int; try lia; reflexivity.
  - simpl. lia.
  - vm_compute. discriminate.
  - exists c, h2. split; [exact Hrun|].
    rewrite Hmem, HcW, HcH, HcD, Hout, Hcd.
    rewrite HW, HH, HD, Hf, Ho, Hdg. by vm_compute.
Defined.

(** ** Serialization *)

Lemma Z_of_byte_of_Z (n : Z) : Z_of_byte (byte_of_Z n) = n mod 256.
Proof.
  unfold Z_of_byte, byte_of_Z.
  pose proof (Z.mod_pos_bound n 256 ltac:(lia)) as Hb.
  destruct (Byte.of_N (Z.to_N (n mod 256))) as [b|] eqn:Hof; simpl.
  - apply Byte.to_of_N in Hof. rewrite Hof. lia.
  - apply Byte.of_N_None_iff in Hof. lia.
Qed.

Lemma read_put_u32_le (v : Z) (rest : list byte) :
  0 ≤ v < 2 ^ 32 → read_u32_le (put_u32_le v ++ rest) = inr (v, rest).
Proof.
  intros Hv. unfold put_u32_le. simpl. rewrite !Z_of_byte_of_Z.
  do 2 f_equal. change (2 ^ 8) with 256. change (2 ^ 16) with 65536.
  change (2 ^ 24) with 16777216. change (2 ^ 32) with 4294967296 in Hv.
  Z.div_mod_to_equations. lia.
Qed.

Section Serialization.
Context `{ConvLayerOps}.

(** The round trip where the stride's square fits a [uint32].  Take a
    well-formed grow layer whose inverse stride [s] lies between 1 and
    65535, whose inner layer has one output channel per filter, whose
    [Serialize] succeeds and on whose inner layer the inner coder
    round-trips.  The serialized stream is the four little-endian bytes of
    [s] followed by the inner layer's bytes, and [DeserializeConvGrowLayer]
    turns it into a layer with the same inverse stride, with the filter
    count [innerFilterCount / s²], which is the original's, and with an
    inner layer that serializes to the same bytes; so the whole layer
    serializes to the same stream. *)
Theorem Serialize_Deserialize_roundtrip
    (c : ConvGrowLayer) (h h1 : heap) (ib : list byte) (cl' : ConvLayer.t) :
  1 ≤ inverseStride c ≤ 65535 →
  ConvGrow_wf h c →
  Z.of_nat (length (ConvLayer.filters (convLayer c)))
    = Depth (ConvLayer.output (convLayer c)) →
  ConvLayer_Serialize (convLayer c) h = inr ib →
  inner_roundtrip (convLayer c) h ib cl' h1 →
  Serialize c h = inr (put_u32_le (inverseStride c) ++ ib) ∧
  ∃ c' h2,
    DeserializeConvGrowLayer (put_u32_le (inverseStride c) ++ ib) h
      = Ret (inr c', h2) ∧
    inverseStride c' = inverseStride c ∧
    Depth (output c')
      = Z.of_nat (length (ConvLayer.filters (convLayer c')))
        / (inverseStride c' * inverseStride c') ∧
    Depth (output c') = Depth (output c) ∧
    ConvLayer_Serialize (convLayer c') h2 = inr ib ∧
    Serialize c' h2 = Serialize c h.
Proof.
  intros Hs [Hout Hinn Hsh Hsep] Hfil Hser [Hdec Hrf Hrs Hrwf Hral Hrenc].
  set (s := inverseStride c) in *.
  assert (GoInt.u32 s = s) as Hu32.
  { unfold GoInt.u32. apply Z.mod_small. lia. }
  assert (Serialize c h = inr (put_u32_le s ++ ib)) as Hstream.
  { unfold Serialize. fold s. by rewrite Hser, Hu32. }
  split; [done|].
  unfold DeserializeConvGrowLayer.
  rewrite read_put_u32_le by lia.
  rewrite (bind_Ret _ _ _ _ _ Hdec).
  destruct Hsh as [_ HgW HgH HgD]. fold s in HgW, HgH, HgD.
  destruct Hrs as (HW' & HH' & HD').
  pose proof (wf_width _ _ Hout) as HW.
  pose proof (wf_height _ _ Hout) as HH.
  pose proof (wf_depth _ _ Hout) as HD.
  pose proof (wf_depth _ _ Hinn) as HDi.
  assert (GoInt.u32_mul s s = s * s) as Hss.
  { unfold GoInt.u32_mul, GoInt.u32. apply Z.mod_small. nia. }
  assert (Z.of_nat (length (ConvLayer.filters cl')) / (s * s)
          = Depth (output c)) as Hfc.
  { rewrite Hrf, Hfil, HgD. rewrite (Z.mul_comm (s * s)).
    apply Z.div_mul. nia. }
  assert (GoInt.quot (Z.of_nat (length (ConvLayer.filters cl')))
            (GoInt.u32_mul s s) = Some (Depth (output c))) as Hq.
  { rewrite Hss, <- Hfc. apply quot_nonneg; [|nia].
    rewrite Hrf, Hfil. lia. }
  rewrite (bind_Ret _ _ _ _ _ (lift_Some _ _ h1 Hq)).
  assert (GoInt.mul (Width (ConvLayer.output cl')) s = Width (output c))
    as HmW.
  { rewrite HW', HgW. apply mul_id. rewrite <- HgW.
    unfold GoInt.in_range, GoInt.min_int, GoInt.max_int in *. lia. }
  assert (GoInt.mul (Height (ConvLayer.output cl')) s = Height (output c))
    as HmH.
  { rewrite HH', HgH. apply mul_id. rewrite <- HgH.
    unfold GoInt.in_range, GoInt.min_int, GoInt.max_int in *. lia. }
  rewrite HmW, HmH.
  pose proof (tensor_size_go h _ Hout) as Hgo.
  pose proof (wf_len _ _ Hout) as Hlen.
  rewrite NewTensor3_Ret'
    by (rewrite Hgo, <- Hlen; unfold slice_len; lia).
  pose proof (tensor_size_go h1 _ Hrwf) as Hgo'.
  pose proof (wf_len _ _ Hrwf) as Hlen'.
  rewrite NewTensor3_Ret'
    by (rewrite Hgo', <- Hlen'; unfold slice_len; lia).
  unfold ConvLayer.SetDownstreamGradient at 1.
  unfold mbind at 1, M_bind at 1, bind at 1.
  match goal with
  | |- context [if ?b then _ else _] => destruct b
  end; simpl.
  - eexists _, _. split; [done|]. simpl. fold s.
    rewrite <- app_assoc.
    repeat split; [done..| |].
    + apply Hrenc.
    + rewrite Hstream. unfold Serialize. simpl. rewrite Hrenc. fold s.
      by rewrite Hu32.
  - eexists _, _. split; [done|]. simpl. fold s.
    rewrite <- app_assoc.
    repeat split; [done..| |].
    + destruct cl'. apply Hrenc.
    + rewrite Hstream. unfold Serialize. simpl. destruct cl'. simpl in *.
      rewrite Hrenc. fold s. by rewrite Hu32.
Qed.

End Serialization.

(** The round trip on the worked example: stride 2 over a [2×2] inner
    layer with four filters. *)
Lemma Serialize_Deserialize_roundtrip_example :
  ∃ (c' : ConvGrowLayer) (h2 : list (list Z)),
    @DeserializeConvGrowLayer Z_float MiniConv.ops
      (put_u32_le 2 ++ put_u32_le 4 ++ put_u32_le 2 ++ put_u32_le 2)
      example_heap = Ret (inr c', h2) ∧
    inverseStride c' = 2 ∧
    Depth (output c') = 1 ∧
    @Serialize Z_float MiniConv.ops c' h2
      = @Serialize Z_float MiniConv.ops example_layer example_heap.
Proof.
  destruct (@Serialize_Deserialize_roundtrip Z_float MiniConv.ops
              example_layer example_heap
              (example_heap ++ [replicate 16 0])
              (put_u32_le 4 ++ put_u32_le 2 ++ put_u32_le 2)
              {| ConvLayer.filters := replicate 4 MiniConv.filter;
                 ConvLayer.output :=
                   {| Width := 2; Height := 2; Depth := 4; Data := 3%nat |};
                 ConvLayer.downstreamGradient := None |})
    as (_ & c' & h2 & Hdec & Hs & _ & Hd & _ & Hser).
  - simpl. lia.
  - split; [split; simpl; unfold GoInt.max_int; try lia; reflexivity ..
           | split; simpl; lia | simpl; lia].
  - reflexivity.
  - reflexivity.
  - split; [reflexivity | reflexivity | repeat split
           | split; simpl; unfold GoInt.max_int; try lia; reflexivity
           | simpl; lia | intros; reflexivity].
  - exists c', h2. split; [exact Hdec|]. by repeat split.
Defined.

(** C7 fails on the code.  The layer with inverse stride 65536 is well
    formed and serializes, but [DeserializeConvGrowLayer] squares the
    stride in [uint32], where [65536 * 65536] is 0, and panics on the
    division of the filter count by it; [NewConvGrowLayer] squares the
    same stride in [int]. *)
Theorem Serialize_Deserialize_wide_stride_panics :
  @NewConvGrowLayer Z_float MiniConv.ops wide_stride_params []
    = Ret (wide_stride_layer, wide_stride_heap) ∧
  @ConvGrow_wf Z_float wide_stride_heap wide_stride_layer ∧
  ∃ bytes,
    @Serialize Z_float MiniConv.ops wide_stride_layer wide_stride_heap
      = inr bytes ∧
    bytes = [x00; x00; x01; x00] ++ put_u32_le 0 ++ put_u32_le 1
            ++ put_u32_le 1 ∧
    @DeserializeConvGrowLayer Z_float MiniConv.ops bytes wide_stride_heap
      = Panic.
Proof.
  split; [by vm_compute|]. split.
  - split; [split; simpl; unfold GoInt.max_int; try lia; reflexivity ..
           | split; simpl; lia | simpl; lia].
  - eexists. split; [reflexivity|]. split; by vm_compute.
Qed.

(** ** The gradient cache *)

Section Cache.
Context `{Float64}.

Lemma zero_gradient_all_zero (vars : list nat) :
  all_zero (zero_gradient vars).
Proof.
  intros i j x. unfold zero_gradient. rewrite list_lookup_fmap.
  destruct (vars !! i) as [n|]; simpl; [|done].
  intros Hx. by apply lookup_replicate in Hx as [-> _].
Qed.

Lemma zeroed_all_zero (g : Gradient) : all_zero (zeroed g).
Proof.
  intros i j x. unfold zeroed. rewrite list_lookup_fmap.
  destruct (g !! i) as [v|]; simpl; [|done].
  rewrite list_lookup_fmap. destruct (v !! j); simpl; [|done].
  by intros [= <-].
Qed.

Lemma pool_index_last (p : list gloc) (l : gloc) :
  pool_index (p ++ [l]) (Z.of_nat (length (p ++ [l])) - 1) = Some l.
Proof.
  unfold pool_index. rewrite length_app. simpl.
  destruct (Z.ltb_spec (Z.of_nat (length p + 1) - 1) 0); [lia|].
  replace (Z.to_nat (Z.of_nat (length p + 1) - 1)) with (length p) by lia.
  by rewrite list_lookup_middle.
Qed.

Lemma pool_prefix_last (p : list gloc) (l : gloc) :
  pool_prefix (p ++ [l]) (Z.of_nat (length (p ++ [l])) - 1) = Some p.
Proof.
  unfold pool_prefix. rewrite length_app. simpl.
  destruct (Z.ltb_spec (Z.of_nat (length p + 1) - 1) 0); [lia|].
  destruct (Z.ltb_spec (Z.of_nat (length p + 1))
              (Z.of_nat (length p + 1) - 1)); [lia|]. simpl.
  replace (Z.to_nat (Z.of_nat (length p + 1) - 1)) with (length p) by lia.
  by rewrite take_app_length.
Qed.

(** [Alloc] on an empty pool makes a fresh zero buffer. *)
Lemma Alloc_fresh (σ : state) :
  gradsLock (cache σ) = false → gradients (cache σ) = [] →
  Alloc σ
  = Ret (length (store σ),
         {| store := store σ ++ [zero_gradient (variables (cache σ))];
            cache := cache σ;
            trace := trace σ ++ [Locked GradsLock; Unlocked GradsLock;
                                 Created (length (store σ))] |}).
Proof.
  destruct σ as [st [gl rl vars gr rgr] tr]. simpl. intros -> ->.
  unfold Alloc, Lock, Unlock, NewGradient, mbind, M_bind, bind, gets, log,
    set_cache, set_store. simpl.
  by rewrite <- !app_assoc.
Qed.

(** [Alloc] on a pool that ends with an allocated buffer pops that buffer
    and zeroes it, once the lock is released. *)
Lemma Alloc_reuse (σ : state) (p : list gloc) (l : gloc) (g : Gradient) :
  gradsLock (cache σ) = false → gradients (cache σ) = p ++ [l] →
  store σ !! l = Some g →
  Alloc σ
  = Ret (l,
         {| store := <[l := zeroed g]> (store σ);
            cache := set_gradients p (cache σ);
            trace := trace σ ++ [Locked GradsLock; Unlocked GradsLock;
                                 Zeroed l] |}).
Proof.
  destruct σ as [st [gl rl vars gr rgr] tr]. simpl. intros -> -> Hg.
  unfold Alloc, Lock, mbind, M_bind, bind, gets. simpl.
  destruct (Z.eqb_spec (Z.of_nat (length (p ++ [l]))) 0) as [Hz|_].
  { rewrite length_app in Hz. simpl in Hz. lia. }
  rewrite pool_index_last, pool_prefix_last. simpl.
  unfold Gradient_Zero, update_gradient, mbind, M_bind, bind. simpl.
  rewrite Hg. unfold modify, log, set_store, set_cache, set_gradients. simpl.
  by rewrite <- !app_assoc.
Qed.

Lemma Free_spec (σ : state) (l : gloc) :
  gradsLock (cache σ) = false →
  Free l σ
  = Ret (tt,
         {| store := store σ;
            cache := set_gradients (gradients (cache σ) ++ [l]) (cache σ);
            trace := trace σ ++ [Locked GradsLock; Unlocked GradsLock] |}).
Proof.
  destruct σ as [st [gl rl vars gr rgr] tr]. simpl. intros ->.
  unfold Free, Lock, Unlock, modify, mbind, M_bind, bind, log, set_cache,
    set_gradients. simpl.
  by rewrite <- !app_assoc.
Qed.

Lemma FreeR_spec (σ : state) (l : gloc) :
  rgradsLock (cache σ) = false →
  FreeR l σ
  = Ret (tt,
         {| store := store σ;
            cache := set_rGradients (rGradients (cache σ) ++ [l]) (cache σ);
            trace := trace σ ++ [Locked RGradsLock; Unlocked RGradsLock] |}).
Proof.
  destruct σ as [st [gl rl vars gr rgr] tr]. simpl. intros ->.
  unfold FreeR, Lock, Unlock, modify, mbind, M_bind, bind, log, set_cache,
    set_rGradients. simpl.
  by rewrite <- !app_assoc.
Qed.

(** C6.  From a state in which the plain-gradient lock is free and the
    pooled buffers exist, [Alloc] returns a buffer all of whose entries
    are zero, and leaves the lock free.  On an empty pool the buffer is a
    fresh one; otherwise it is the buffer at the end of the pool (the one
    freed last), removed from the pool, and the trace ends with the lock
    taken, the lock released, and only then the buffer zeroed. *)
Theorem Alloc_returns_zeroed (σ : state) :
  gradsLock (cache σ) = false →
  (∀ l, l ∈ gradients (cache σ) → is_Some (store σ !! l)) →
  ∃ l σ' g,
    Alloc σ = Ret (l, σ') ∧
    store σ' !! l = Some g ∧ all_zero g ∧
    gradsLock (cache σ') = false ∧
    (gradients (cache σ) = [] →
     l = length (store σ) ∧ store σ !! l = None ∧
     gradients (cache σ') = [] ∧
     trace σ' = trace σ ++ [Locked GradsLock; Unlocked GradsLock;
                            Created l]) ∧
    (∀ p l0, gradients (cache σ) = p ++ [l0] →
     l = l0 ∧ gradients (cache σ') = p ∧
     trace σ' = trace σ ++ [Locked GradsLock; Unlocked GradsLock;
                            Zeroed l]).
Proof.
  intros Hlock Hpool.
  destruct (gradients (cache σ)) as [|l1 p1] eqn:Hp using rev_ind.
  - rewrite (Alloc_fresh σ Hlock Hp).
    eexists _, _, _. split; [done|]. simpl.
    split; [by rewrite list_lookup_middle|].
    split; [apply zero_gradient_all_zero|].
    split; [done|]. split.
    + intros _. split; [done|]. split; [|done].
      apply lookup_ge_None. lia.
    + intros p l0 Hnil. by destruct p.
  - clear IHp1.
    destruct (Hpool l1) as [g Hg]; [apply elem_of_app; right; constructor|].
    rewrite (Alloc_reuse σ p1 l1 g Hlock Hp Hg).
    eexists _, _, _. split; [done|]. simpl.
    split.
    { apply list_lookup_insert_eq. by apply lookup_lt_Some in Hg. }
    split; [apply zeroed_all_zero|].
    split; [done|]. split.
    + intros Hnil. by destruct p1.
    + intros p l0 Heq. apply app_inj_tail in Heq as [-> ->]. done.
Qed.

End Cache.

(** C6 on a pool that holds one used buffer: [Alloc] hands it out zeroed,
    and zeroes it after releasing the lock. *)
Lemma Alloc_returns_zeroed_example :
  ∃ σ' : @state Z_float,
    @Alloc Z_float pooled_state = Ret (0%nat, σ') ∧
    store σ' = [[[0; 0]; [0]]] ∧
    gradients (cache σ') = [] ∧
    trace σ' = [Locked GradsLock; Unlocked GradsLock; Zeroed 0%nat].
Proof.
  destruct (@Alloc_returns_zeroed Z_float pooled_state)
    as (l & σ' & g & Hrun & _ & _ & _ & _ & Hreuse).
  - reflexivity.
  - intros l Hl. apply list_elem_of_singleton in Hl as ->. by eexists.
  - destruct (Hreuse [] 0%nat eq_refl) as (-> & Hpool & Htrace).
    exists σ'. split; [exact Hrun|].
    vm_compute in Hrun. injection Hrun as <-. by repeat split.
Defined.

(** C3 fails on the code.  [AllocR] indexes the R-gradient pool with the
    length of the plain pool: with one pooled R-gradient buffer and an empty
    plain pool the index is -1 and the call panics; with two pooled
    R-gradient buffers and one plain buffer it returns the first R-gradient
    buffer, which stays in the pool, and drops the second instead. *)
Theorem AllocR_indexes_by_plain_pool :
  @AllocR Z_float rpooled_state = Panic ∧
  ∃ σ' : @state Z_float,
    @AllocR Z_float rpooled_two_state = Ret (0%nat, σ') ∧
    rGradients (cache σ') = [0%nat].
Proof.
  split; [by vm_compute|].
  exists (@Build_state Z_float [[[0; 0]; [0]]; [[4; 5]; [6]]; [[7; 8]; [9]]]
            (cache_of [2%nat] [0%nat])
            [Locked RGradsLock; Unlocked RGradsLock; Zeroed 0%nat]).
  split; by vm_compute.
Qed.

(** C4 fails on the code.  With a batch size of 8 and 4 processors, the
    worker count computed is 4, but the loop of [Start] runs to the batch
    size and launches 8 goroutines. *)
Theorem Start_launches_batchSize_workers :
  ∃ b', Start 4 batcher_of_8 0%nat = Ret (b', 8%nat) ∧
        respChan b' = Some {| capacity := 4 |} ∧
        (8 > Z.to_nat (Z.min 8 4))%nat.
Proof.
  exists {| batchSize := 8;
            reqChan := Some {| capacity := 0 |};
            respChan := Some {| capacity := 4 |};
            lastGradResult := None; lastGradRResult := None |}.
  split; [by vm_compute|]. split; [done|]. simpl. lia.
Qed.

(** ** Batches on a Batcher without workers *)

Section GradientShapes.
Context `{Float64}.

Lemma zeroed_vector_add (v v1 : list F) :
  fmap (M := list) (λ _ : F, fzero) v = fmap (M := list) (λ _ : F, fzero) v1 →
  fmap (M := list) (λ _ : F, fzero) (vector_add v v1)
  = fmap (M := list) (λ _ : F, fzero) v.
Proof.
  revert v1. induction v as [|x v IH]; intros [|x1 v1] Heq; try done.
  simpl in *. injection Heq as Heq. f_equal. by apply IH.
Qed.

(** Adding a gradient of the same shape keeps the shape. *)
Lemma zeroed_gradient_add (g g1 : Gradient) :
  zeroed g = zeroed g1 → zeroed (gradient_add g g1) = zeroed g.
Proof.
  revert g1. induction g as [|v g IH]; intros [|v1 g1] Heq; try done.
  unfold zeroed in *. simpl in *. injection Heq as Hv Hg. f_equal.
  - by apply zeroed_vector_add.
  - by apply IH.
Qed.

End GradientShapes.

Section BatchFacts.
Context `{LearnerOps}.

Lemma batcher_inv_allocated (σ : state) (live : list gloc) (l : gloc) :
  batcher_inv σ live → l ∈ live ++ gradients (cache σ) →
  (l < length (store σ))%nat.
Proof.
  intros Hinv Hl. destruct (bi_shape _ _ Hinv l Hl) as (g & Hg & _).
  by apply lookup_lt_Some in Hg.
Qed.

Lemma Gradient_Add_Ret (σ : state) (l l1 : gloc) (g g1 : Gradient) :
  store σ !! l1 = Some g1 → store σ !! l = Some g →
  Gradient_Add l l1 σ
  = Ret (tt, set_store (λ st, <[l := gradient_add g g1]> st) σ).
Proof.
  intros Hg1 Hg. unfold Gradient_Add, read_gradient, update_gradient,
    mbind, M_bind, bind.
  by rewrite Hg1, Hg.
Qed.

(** [Alloc] under the invariant: a zero buffer of the right shape, that
    nobody holds, and the rest of the memory as it was. *)
Lemma Alloc_inv (σ : state) (live : list gloc) :
  batcher_inv σ live →
  ∃ l σ',
    Alloc σ = Ret (l, σ') ∧
    store σ' !! l = Some (zero_gradient Parameters) ∧
    (∀ l', l' ≠ l → store σ' !! l' = store σ !! l') ∧
    gradsLock (cache σ') = false ∧ rgradsLock (cache σ') = false ∧
    variables (cache σ') = Parameters ∧
    rGradients (cache σ') = rGradients (cache σ) ∧
    NoDup (l :: live ++ gradients (cache σ')) ∧
    (∀ x, x ∈ gradients (cache σ') → x ∈ gradients (cache σ)).
Proof.
  intros Hinv.
  destruct (gradients (cache σ)) as [|l1 p1 _] eqn:Hp using rev_ind;
    pose proof Hinv as [Hlock Hrlock Hvars Hnd Hshape];
    rewrite Hp in Hnd, Hshape.
  - rewrite (Alloc_fresh σ Hlock Hp).
    eexists _, _. split; [done|]. simpl.
    split; [by rewrite list_lookup_middle, Hvars|].
    split.
    { intros l' Hne.
      destruct (decide (l' < length (store σ))%nat).
      - by rewrite lookup_app_l.
      - rewrite !lookup_ge_None_2; [done|lia|].
        rewrite length_app. simpl. lia. }
    repeat split; try done.
    + rewrite Hp. apply NoDup_cons. split; [|done].
      intros Hin.
      assert (length (store σ) < length (store σ))%nat; [|lia].
      apply (batcher_inv_allocated σ live); [done|by rewrite Hp].
    + by rewrite Hp.
  - destruct (Hshape l1) as (g & Hg & Hz).
    { apply elem_of_app. right. apply elem_of_app. right. constructor. }
    rewrite (Alloc_reuse σ p1 l1 g Hlock Hp Hg).
    pose proof (lookup_lt_Some _ _ _ Hg) as Hlt.
    eexists _, _. split; [done|]. simpl.
    split; [by rewrite list_lookup_insert_eq, Hz|].
    split; [by intros l' Hne; rewrite list_lookup_insert_ne|].
    destruct (cache σ) as [gl rl vars gr rgr]. simpl in *. subst.
    repeat split; try done.
    + rewrite app_assoc in Hnd.
      apply NoDup_app in Hnd as (Hnd1 & Hdisj & _).
      apply NoDup_cons. split; [|done].
      intros Hin. apply (Hdisj l1 Hin). constructor.
    + intros x Hx. apply elem_of_app. by left.
Qed.

(** One sample on the plain path: [fulfillRequest] returns a buffer that
    nobody held, holding the sample's gradient. *)
Lemma fulfillRequest_plain (σ : state) (live : list gloc)
    (input expected : list F) :
  gradients_fit → batcher_inv σ live →
  ∃ l σ',
    fulfillRequest {| RV := None; Input := input; Expected := expected |} σ
      = Ret ({| RGrad := None; Grad := l |}, σ') ∧
    store σ' !! l = Some (sample_gradient input expected) ∧
    (∀ l', l' ∈ live → store σ' !! l' = store σ !! l') ∧
    batcher_inv σ' (l :: live).
Proof.
  intros Hfit Hinv.
  destruct (Alloc_inv σ live Hinv)
    as (l & σ1 & Hrun & Hl & Hother & Hlock & Hrlock & Hvars & _
        & Hnd & Hsub).
  unfold fulfillRequest. rewrite (bind_Ret _ _ _ _ _ Hrun). simpl.
  unfold update_gradient at 1, mbind at 1, M_bind at 1, bind at 1.
  rewrite Hl. simpl.
  eexists _, _. split; [done|]. simpl.
  pose proof (lookup_lt_Some _ _ _ Hl) as Hlt.
  split; [by rewrite list_lookup_insert_eq|].
  assert (∀ l', l' ∈ live ++ gradients (cache σ1) → l' ≠ l) as Hne.
  { intros l' Hin ->. by apply NoDup_cons in Hnd as [Hnot _]. }
  split.
  { intros l' Hin. rewrite list_lookup_insert_ne.
    - apply Hother. apply Hne. apply elem_of_app. by left.
    - intros Heq. apply (Hne l'); [apply elem_of_app; by left|done]. }
  split; simpl; try done.
  intros x Hx. simpl in Hx. apply elem_of_cons in Hx as [->|Hx].
  - rewrite list_lookup_insert_eq by done. eexists. split; [done|].
    apply Hfit.
  - rewrite list_lookup_insert_ne by (intros ->; by apply (Hne x)).
    rewrite Hother by (by apply Hne).
    apply (bi_shape _ _ Hinv).
    apply elem_of_app in Hx as [Hx|Hx]; apply elem_of_app; [by left|].
    right. by apply Hsub.
Qed.

(** The samples after the first: each gradient is added into the buffer
    [a] of the first and its own buffer goes back to the pool. *)
Lemma batch_loop_plain (outputs inputs : list (list F)) (i : nat)
    (a : gloc) (acc : Gradient) (σ : state) :
  gradients_fit → (0 < i)%nat →
  (i + length inputs ≤ length outputs)%nat →
  batcher_inv σ [a] → store σ !! a = Some acc →
  ∃ σ',
    batch_loop None outputs inputs i (Some a) None σ
      = Ret ((Some a, None), σ') ∧
    batcher_inv σ' [a] ∧
    store σ' !! a
      = Some (foldl gradient_add acc
                (zip_with sample_gradient inputs (drop i outputs))).
Proof.
  intros Hfit. revert i acc σ.
  induction inputs as [|input rest IH]; intros i acc σ Hi Hlen Hinv Hacc.
  - exists σ. by rewrite zip_with_nil_l.
  - simpl in Hlen.
    destruct (lookup_lt_is_Some_2 outputs i) as [expected Hexp]; [lia|].
    simpl. rewrite (bind_Ret _ _ _ _ _ (lift_Some _ _ σ Hexp)).
    destruct (fulfillRequest_plain σ [a] input expected Hfit Hinv)
      as (l & σ1 & Hrun & Hl & Hkeep & Hinv1).
    rewrite (bind_Ret _ _ _ _ _ Hrun). simpl.
    destruct (Nat.eqb_spec i 0) as [->|_]; [lia|].
    pose proof Hinv1 as [Hlock1 Hrlock1 Hvars1 Hnd1 Hshape1].
    assert (store σ1 !! a = Some acc) as Hacc1.
    { rewrite Hkeep; [done|constructor]. }
    assert (a ≠ l) as Hal.
    { intros ->. simpl in Hnd1. apply NoDup_cons in Hnd1 as [Hnot _].
      apply Hnot. constructor. }
    set (σ2 := {| store := <[a := gradient_add acc
                                   (sample_gradient input expected)]>
                             (store σ1);
                  cache := set_gradients (gradients (cache σ1) ++ [l])
                             (cache σ1);
                  trace := trace σ1 ++ [Locked GradsLock;
                                        Unlocked GradsLock] |}).
    assert ((g ← lift (Some a);
             Gradient_Add g l;;
             Free l;;
             mret tt;;
             mret (Some a, @None gloc)) σ1 = Ret ((Some a, None), σ2))
      as Hstep.
    { rewrite (bind_Ret _ _ _ _ _ (lift_Some _ _ σ1 eq_refl)).
      rewrite (bind_Ret _ _ _ _ _ (Gradient_Add_Ret _ _ _ _ _ Hl Hacc1)).
      rewrite (bind_Ret _ _ _ _ _ (Free_spec (set_store _ σ1) l Hlock1)).
      done. }
    rewrite (bind_Ret _ _ _ _ _ Hstep).
    assert (batcher_inv σ2 [a]) as Hinv2.
    { pose proof (lookup_lt_Some _ _ _ Hacc1) as Hlt.
      destruct (cache σ1) as [gl rl vars gr rgr] eqn:Hc. simpl in *.
      split; simpl; try done.
      - apply NoDup_cons in Hnd1 as [Hnot Hnd1].
        apply NoDup_cons in Hnd1 as [Hnota Hnd1].
        apply NoDup_cons. split.
        + intros Hin. apply elem_of_app in Hin as [Hin|Hin].
          * by apply Hnota.
          * apply list_elem_of_singleton in Hin. done.
        + apply NoDup_app. split; [done|]. split; [|apply NoDup_singleton].
          intros x Hx Hxl. apply list_elem_of_singleton in Hxl as ->.
          apply Hnot. by right.
      - intros x Hx.
        destruct (decide (x = a)) as [->|Hxa].
        + rewrite list_lookup_insert_eq by done. eexists. split; [done|].
          destruct (Hshape1 a) as (g' & Hg' & Hz'); [right; left|].
          rewrite Hacc1 in Hg'. injection Hg' as <-.
          rewrite zeroed_gradient_add; [done|]. by rewrite Hz', Hfit.
        + rewrite list_lookup_insert_ne by done.
          apply Hshape1. apply elem_of_cons in Hx as [->|Hx]; [done|].
          apply elem_of_app in Hx as [Hx|Hx].
          * right. right. done.
          * apply list_elem_of_singleton in Hx as ->. left. }
    destruct (IH (Datatypes.S i)
                (gradient_add acc (sample_gradient input expected)) σ2)
      as (σ' & Hloop & Hinv' & Hres); [lia|lia|done| |].
    { simpl. apply list_lookup_insert_eq. by apply lookup_lt_Some in Hacc1. }
    exists σ'. split; [done|]. split; [done|].
    rewrite Hres. by rewrite (drop_S _ _ _ Hexp).
Qed.

End BatchFacts.

Section BatchClaim.
Context `{LearnerOps}.

(** Before the samples are looked at, [batch] gives the buffers of the
    last result back to the cache. *)
Lemma batch_reclaims (b : Batcher) (σ : state) :
  batcher_inv σ (held b) →
  ∃ σ1 σ0,
    match lastGradResult b with
    | Some g => Free g
    | None => mret tt
    end σ = Ret (tt, σ1) ∧
    match lastGradRResult b with
    | Some g => FreeR g
    | None => mret tt
    end σ1 = Ret (tt, σ0) ∧
    batcher_inv σ0 [].
Proof.
  intros Hinv. unfold held in Hinv.
  assert (∃ σ1,
            match lastGradResult b with
            | Some g => Free g
            | None => mret tt
            end σ = Ret (tt, σ1) ∧ batcher_inv σ1 []) as (σ1 & Hfree & Hinv1).
  { destruct (lastGradResult b) as [g|]; simpl in Hinv.
    - pose proof Hinv as [Hlock Hrlock Hvars Hnd Hshape].
      rewrite (Free_spec σ g Hlock). eexists. split; [done|].
      destruct (cache σ) as [gl rl vars gr rgr]. simpl in *.
      split; simpl; try done.
      + apply NoDup_cons in Hnd as [Hnot Hnd].
        apply NoDup_app. split; [done|]. split; [|apply NoDup_singleton].
        intros x Hx Hxg. by apply list_elem_of_singleton in Hxg as ->.
      + intros x Hx. apply Hshape.
        apply elem_of_app in Hx as [Hx|Hx]; [by right|].
        apply list_elem_of_singleton in Hx as ->. left.
    - by exists σ. }
  pose proof Hinv1 as [Hlock Hrlock Hvars Hnd Hshape].
  exists σ1. destruct (lastGradRResult b) as [g|].
  - rewrite (FreeR_spec σ1 g Hrlock). eexists. split; [done|]. split; [done|].
    destruct (cache σ1) as [gl rl vars gr rgr]. simpl in *.
    by split.
  - by exists σ1.
Qed.

(** C5.  Take a Batcher without workers, in a state its own operations
    leave, over a learner whose gradients fit its parameter list, and a
    sample set that is not empty and has an expected output for each input.
    For each sample, [fulfillRequest] returns a buffer holding that
    sample's gradient; and [BatchGradient] returns the buffer of the first
    sample, holding the elementwise sum of the samples' gradients, added
    one after the other in the order of the samples. *)
Theorem BatchGradient_sums_sample_gradients
    (b : Batcher) (s : SampleSet) (σ : state) :
  reqChan b = None → gradients_fit → batcher_inv σ (held b) →
  Inputs s ≠ [] → length (Outputs s) = length (Inputs s) →
  (∀ τ live input expected,
     batcher_inv τ live →
     ∃ l τ',
       fulfillRequest {| RV := None; Input := input; Expected := expected |} τ
         = Ret ({| RGrad := None; Grad := l |}, τ') ∧
       store τ' !! l = Some (sample_gradient input expected)) ∧
  ∃ a b' σ' g0 gs,
    BatchGradient s b σ = Ret ((Some a, b'), σ') ∧
    zip_with sample_gradient (Inputs s) (Outputs s) = g0 :: gs ∧
    store σ' !! a = Some (foldl gradient_add g0 gs) ∧
    lastGradResult b' = Some a ∧ reqChan b' = None ∧
    batcher_inv σ' (held b').
Proof.
  intros Hchan Hfit Hinv Hne Hlen. split.
  { intros τ live input expected Hτ.
    destruct (fulfillRequest_plain τ live input expected Hfit Hτ)
      as (l & τ' & Hrun & Hl & _). by exists l, τ'. }
  destruct (batch_reclaims b σ Hinv) as (σr & σ0 & Hfree & HfreeR & Hinv0).
  destruct (Inputs s) as [|input0 rest] eqn:Hin; [done|].
  destruct (Outputs s) as [|expected0 outs] eqn:Hout; [done|].
  simpl in Hlen.
  destruct (fulfillRequest_plain σ0 [] input0 expected0 Hfit Hinv0)
    as (a & σ1 & Hrun & Ha & _ & Hinv1).
  destruct (batch_loop_plain (expected0 :: outs) rest 1 a
              (sample_gradient input0 expected0) σ1)
    as (σ' & Hloop & Hinv' & Hres); [done|lia|simpl; lia|done|done|].
  exists a,
    {| batchSize := batchSize b; reqChan := reqChan b; respChan := respChan b;
       lastGradResult := Some a; lastGradRResult := None |},
    σ', (sample_gradient input0 expected0),
    (zip_with sample_gradient rest outs).
  assert (batch None s b σ
          = Ret (((Some a, None),
                  {| batchSize := batchSize b; reqChan := reqChan b;
                     respChan := respChan b; lastGradResult := Some a;
                     lastGradRResult := None |}), σ')) as Hbatch.
  { assert (batch_loop None (expected0 :: outs) (input0 :: rest) 0 None None σ0
            = Ret ((Some a, None), σ')) as Hloop0.
    { simpl.
      rewrite (bind_Ret (ret expected0) _ σ0 expected0 σ0 eq_refl).
      rewrite (bind_Ret _ _ _ _ _ Hrun). simpl.
      by rewrite (bind_Ret (mret (Some a, None)) _ σ1 (Some a, None) σ1 eq_refl). }
    unfold batch. rewrite Hin, Hout.
    rewrite (bind_Ret _ _ _ _ _ Hfree).
    rewrite (bind_Ret _ _ _ _ _ HfreeR).
    by rewrite (bind_Ret _ _ _ _ _ Hloop0). }
  split.
  { unfold BatchGradient. by rewrite (bind_Ret _ _ _ _ _ Hbatch). }
  split; [done|]. split; [exact Hres|]. split; [done|]. split; [done|].
  exact Hinv'.
Qed.

End BatchClaim.

(** C5 on a batch of three samples through a new Batcher for batches of
    three: the result is the sum of the three single-sample gradients. *)
Lemma BatchGradient_three_samples :
  ∃ (a : gloc) (b' : Batcher) (σ' : @state Z_float),
    @BatchGradient Z_float MiniLearner.ops MiniLearner.samples
      (fst (@NewBatcher Z_float MiniLearner.ops 3))
      (snd (@NewBatcher Z_float MiniLearner.ops 3)) = Ret ((Some a, b'), σ') ∧
    store σ' !! a
    = Some (@gradient_add Z_float
              (@gradient_add Z_float
                 (@sample_gradient Z_float MiniLearner.ops [5] [1])
                 (@sample_gradient Z_float MiniLearner.ops [7] [1]))
              (@sample_gradient Z_float MiniLearner.ops [20] [4])) ∧
    store σ' !! a = Some [[26; 26]; [26]].
Proof.
  destruct (@BatchGradient_sums_sample_gradients Z_float MiniLearner.ops
              (fst (@NewBatcher Z_float MiniLearner.ops 3))
              MiniLearner.samples
              (snd (@NewBatcher Z_float MiniLearner.ops 3)))
    as (_ & a & b' & σ' & g0 & gs & Hrun & Hzip & Hres & _).
  - reflexivity.
  - intros input expected. reflexivity.
  - split; simpl; try reflexivity.
    + apply NoDup_nil_2.
    + intros l Hl. by apply elem_of_nil in Hl.
  - discriminate.
  - reflexivity.
  - exists a, b', σ'. split; [exact Hrun|].
    simpl in Hzip. injection Hzip as <- <-.
    split; [exact Hres|]. etrans; [exact Hres|]. reflexivity.
Defined.

(** * Further properties *)

(** ** Starting and stopping a Batcher *)

Lemma for_range_count (hi : Z) (k : nat) :
  0 ≤ hi →
  for_range hi (λ _, modify Datatypes.S) k = Ret (tt, (k + Z.to_nat hi)%nat).
Proof.
  intros Hhi.
  destruct (for_range_inv (λ j s, s = (k + Z.to_nat j)%nat) hi
              (λ _, modify Datatypes.S) k) as (s' & Hrun & ->); [done| | |done].
  - simpl. lia.
  - intros j t Hj ->. eexists. split; [done|]. lia.
Qed.

(** When the smaller of the batch size and the processor count is below 2,
    [Start] launches nothing and leaves the Batcher as it was. *)
Theorem Start_below_two (gomaxprocs : Z) (b : Batcher) (k : nat) :
  Z.min (batchSize b) gomaxprocs < 2 →
  Start gomaxprocs b k = Ret (b, k).
Proof.
  intros Hmin. unfold Start.
  destruct (Z.ltb_spec gomaxprocs (batchSize b));
    match goal with
    | |- context [?x <? 2] => destruct (Z.ltb_spec x 2)
    end; try done; lia.
Qed.

Lemma Start_below_two_example :
  Start 1 batcher_of_8 0%nat = Ret (batcher_of_8, 0%nat).
Proof. apply Start_below_two. simpl. lia. Defined.

(** Otherwise [Start] launches one goroutine per sample of a batch, as many
    as the batch size, whatever the processor count; the request channel
    is unbuffered and the response channel has room for the smaller of the
    two numbers. *)
Theorem Start_two_or_more (gomaxprocs : Z) (b : Batcher) (k : nat) :
  2 ≤ Z.min (batchSize b) gomaxprocs →
  Start gomaxprocs b k
  = Ret ({| batchSize := batchSize b;
            reqChan := Some {| capacity := 0 |};
            respChan :=
              Some {| capacity := Z.min (batchSize b) gomaxprocs |};
            lastGradResult := lastGradResult b;
            lastGradRResult := lastGradRResult b |},
         (k + Z.to_nat (batchSize b))%nat).
Proof.
  intros Hmin. unfold Start.
  destruct (Z.ltb_spec gomaxprocs (batchSize b));
    match goal with
    | |- context [?x <? 2] => destruct (Z.ltb_spec x 2)
    end; try lia.
  - rewrite (bind_Ret _ _ _ _ _ (for_range_count (batchSize b) k ltac:(lia))).
    by rewrite Z.min_r by lia.
  - rewrite (bind_Ret _ _ _ _ _ (for_range_count (batchSize b) k ltac:(lia))).
    by rewrite Z.min_l by lia.
Qed.

Lemma Start_two_or_more_example :
  ∃ b', Start 2 batcher_of_8 0%nat = Ret (b', 8%nat) ∧
        respChan b' = Some {| capacity := 2 |}.
Proof.
  eexists. split; [apply Start_two_or_more; simpl; lia|]. reflexivity.
Defined.

(** [Stop] undoes [Start]: a Batcher that was not running is, after
    [Start] and [Stop], the Batcher it was; and stopping twice is stopping
    once. *)
Theorem Start_then_Stop (gomaxprocs : Z) (b : Batcher) (k : nat) :
  reqChan b = None → respChan b = None →
  ∃ b' k',
    Start gomaxprocs b k = Ret (b', k') ∧
    Stop b' = b ∧ Stop (Stop b') = Stop b'.
Proof.
  intros Hreq Hresp. unfold Start.
  destruct (Z.ltb_spec gomaxprocs (batchSize b));
    match goal with
    | |- context [?x <? 2] => destruct (Z.ltb_spec x 2)
    end;
    try (exists b, k; split; [done|]; unfold Stop; by rewrite !Hreq);
    rewrite (bind_Ret _ _ _ _ _ (for_range_count (batchSize b) k ltac:(lia)));
    (eexists _, _; split; [done|]);
    destruct b as [bs rq rs lg lr]; simpl in *; by subst.
Qed.

Lemma Start_then_Stop_example :
  ∃ b' k',
    Start 4 batcher_of_8 0%nat = Ret (b', k') ∧
    Stop b' = batcher_of_8 ∧ Stop (Stop b') = Stop b'.
Proof. by apply Start_then_Stop. Defined.

(** ** The pools of the gradient cache *)

Section CacheMore.
Context `{Float64}.

(** A buffer given back with [Free] is the buffer the next [Alloc] hands
    out, zeroed, and the cache is then as it was before. *)
Theorem Free_then_Alloc (σ : state) (l : gloc) (g : Gradient) :
  gradsLock (cache σ) = false → store σ !! l = Some g →
  ∃ σ',
    (Free l;; Alloc) σ = Ret (l, σ') ∧
    store σ' = <[l := zeroed g]> (store σ) ∧
    cache σ' = cache σ.
Proof.
  intros Hlock Hg.
  rewrite (bind_Ret _ _ _ _ _ (Free_spec σ l Hlock)).
  erewrite (Alloc_reuse _ (gradients (cache σ)) l g); [| |done|done].
  - eexists. split; [done|]. split; [done|].
    destruct (cache σ) as [gl rl vars gr rgr]. simpl in *. by subst.
  - destruct (cache σ) as [gl rl vars gr rgr]. simpl in *. by subst.
Qed.

(** [AllocR] on an empty R-gradient pool makes a fresh zero buffer,
    whatever the plain pool holds. *)
Lemma AllocR_fresh (σ : state) :
  rgradsLock (cache σ) = false → rGradients (cache σ) = [] →
  AllocR σ
  = Ret (length (store σ),
         {| store := store σ ++ [zero_gradient (variables (cache σ))];
            cache := cache σ;
            trace := trace σ ++ [Locked RGradsLock; Unlocked RGradsLock;
                                 Created (length (store σ))] |}).
Proof.
  destruct σ as [st [gl rl vars gr rgr] tr]. simpl. intros -> ->.
  unfold AllocR, Lock, Unlock, NewGradient, mbind, M_bind, bind, gets, log,
    set_cache, set_store. simpl.
  by rewrite <- !app_assoc.
Qed.

(** [AllocR] on a non-empty R-gradient pool, with [n] buffers in the plain
    pool: the buffer at index [n - 1] of the R-gradient pool is zeroed and
    returned, and the last buffer of the R-gradient pool is dropped. *)
Lemma AllocR_indexed (σ : state) (p : list gloc) (l0 r : gloc)
    (g : Gradient) :
  rgradsLock (cache σ) = false → rGradients (cache σ) = p ++ [l0] →
  (0 < length (gradients (cache σ)))%nat →
  (p ++ [l0]) !! (length (gradients (cache σ)) - 1)%nat = Some r →
  store σ !! r = Some g →
  AllocR σ
  = Ret (r,
         {| store := <[r := zeroed g]> (store σ);
            cache := set_rGradients p (cache σ);
            trace := trace σ ++ [Locked RGradsLock; Unlocked RGradsLock;
                                 Zeroed r] |}).
Proof.
  destruct σ as [st [gl rl vars gr rgr] tr]. simpl. intros -> -> Hn Hr Hg.
  unfold AllocR, Lock, mbind, M_bind, bind, gets. simpl.
  destruct (Z.eqb_spec (Z.of_nat (length (p ++ [l0]))) 0) as [Hz|_].
  { rewrite length_app in Hz. simpl in Hz. lia. }
  unfold pool_index.
  destruct (Z.ltb_spec (Z.of_nat (length gr) - 1) 0); [lia|].
  replace (Z.to_nat (Z.of_nat (length gr) - 1)) with (length gr - 1)%nat
    by lia.
  rewrite Hr. simpl. rewrite pool_prefix_last. simpl.
  unfold Gradient_Zero, update_gradient, mbind, M_bind, bind. simpl.
  rewrite Hg. unfold modify, log, set_store, set_cache, set_rGradients. simpl.
  by rewrite <- !app_assoc.
Qed.

(** When [AllocR] panics.  With the R-gradient lock free and a non-empty
    R-gradient pool of existing buffers, [AllocR] panics exactly when the
    plain pool is empty or longer than the R-gradient pool.  When it
    returns, the buffer is the one at the plain pool's last index, and the
    R-gradient pool has lost its own last element: unless the two pools
    are equally long, the buffer returned is still pooled. *)
Theorem AllocR_panics_iff (σ : state) :
  rgradsLock (cache σ) = false →
  rGradients (cache σ) ≠ [] →
  (∀ r, r ∈ rGradients (cache σ) → is_Some (store σ !! r)) →
  (AllocR σ = Panic ↔
   gradients (cache σ) = [] ∨
   (length (rGradients (cache σ)) < length (gradients (cache σ)))%nat) ∧
  (∀ r σ',
     AllocR σ = Ret (r, σ') →
     rGradients (cache σ) !! (length (gradients (cache σ)) - 1)%nat = Some r ∧
     rGradients (cache σ')
       = take (length (rGradients (cache σ)) - 1) (rGradients (cache σ))).
Proof.
  intros Hlock Hne Hexists.
  destruct (rGradients (cache σ)) as [|l0 p _] eqn:Hp using rev_ind; [done|].
  clear Hne.
  destruct (decide (0 < length (gradients (cache σ))
                    ≤ length (p ++ [l0]))%nat) as [Hin|Hout].
  - destruct (lookup_lt_is_Some_2 (p ++ [l0])
                (length (gradients (cache σ)) - 1)) as [r Hr]; [lia|].
    destruct (Hexists r) as [g Hg].
    { by apply list_elem_of_lookup_2 in Hr. }
    rewrite (AllocR_indexed σ p l0 r g Hlock Hp (proj1 Hin) Hr Hg).
    split.
    + split; [done|]. intros [Hnil|Hlen]; [|lia].
      rewrite Hnil in Hin. simpl in Hin. lia.
    + intros r' σ' [= <- <-]. split; [done|]. simpl.
      destruct (cache σ) as [gl rl vars gr rgr]. simpl in *.
      rewrite length_app. simpl.
      replace (length p + 1 - 1)%nat with (length p) by lia.
      by rewrite take_app_length.
  - assert (AllocR σ = Panic) as Hpanic.
    { destruct σ as [st [gl rl vars gr rgr] tr]. simpl in *. subst.
      unfold AllocR, Lock, mbind, M_bind, bind, gets. simpl.
      destruct (Z.eqb_spec (Z.of_nat (length (p ++ [l0]))) 0) as [Hz|_].
      { rewrite length_app in Hz. simpl in Hz. lia. }
      unfold pool_index.
      destruct (Z.ltb_spec (Z.of_nat (length gr) - 1) 0); [done|].
      rewrite lookup_ge_None_2; [done|]. lia. }
    rewrite Hpanic. split; [|done].
    split; [|done]. intros _.
    destruct (gradients (cache σ)); [by left|right].
    simpl in *. lia.
Qed.

End CacheMore.

Lemma Free_then_Alloc_example :
  ∃ σ' : @state Z_float,
    (@Free Z_float 0%nat;; @Alloc Z_float) rpooled_state = Ret (0%nat, σ') ∧
    store σ' = [[[0; 0]; [0]]] ∧
    cache σ' = cache rpooled_state.
Proof.
  destruct (@Free_then_Alloc Z_float rpooled_state 0%nat [[5; 6]; [7]])
    as (σ' & Hrun & Hstore & Hcache); [reflexivity..|].
  exists σ'. by repeat split.
Defined.

Lemma AllocR_panics_iff_example :
  @AllocR Z_float rpooled_state = Panic ↔
  gradients (cache rpooled_state) = [] ∨
  (length (rGradients (cache rpooled_state))
   < length (gradients (cache rpooled_state)))%nat.
Proof.
  apply (@AllocR_panics_iff Z_float rpooled_state).
  - reflexivity.
  - discriminate.
  - intros r Hr. apply list_elem_of_singleton in Hr as ->. by eexists.
Defined.

(** ** More on batches without workers *)

Section BatchMore.
Context `{LearnerOps}.

(** The state a new Batcher starts from satisfies the invariant. *)
Lemma NewBatcher_inv (n : Z) :
  batcher_inv (snd (NewBatcher n)) (held (fst (NewBatcher n))).
Proof.
  split; simpl; try done.
  - apply NoDup_nil_2.
  - intros l Hl. by apply elem_of_nil in Hl.
Qed.

(** The buffer of the last result goes to the end of the plain pool. *)
Lemma batch_reclaims_held (b : Batcher) (σ : state) (a : gloc) :
  batcher_inv σ (held b) → lastGradResult b = Some a →
  ∀ σ1 σ0,
    match lastGradResult b with
    | Some g => Free g
    | None => mret tt
    end σ = Ret (tt, σ1) →
    match lastGradRResult b with
    | Some g => FreeR g
    | None => mret tt
    end σ1 = Ret (tt, σ0) →
    gradients (cache σ0) = gradients (cache σ) ++ [a] ∧
    store σ0 = store σ.
Proof.
  intros Hinv Ha σ1 σ0. rewrite Ha.
  rewrite (Free_spec σ a (bi_lock _ _ Hinv)). intros [= <-].
  destruct (lastGradRResult b) as [g|].
  - rewrite FreeR_spec by apply (bi_rlock _ _ Hinv). intros [= <-].
    simpl. by destruct (cache σ).
  - intros [= <-]. simpl. by destruct (cache σ).
Qed.


(** A non-empty batch, step by step: the buffers of the last result are
    reclaimed, the first sample's buffer becomes the result, and the other
    samples are added into it. *)
Lemma batch_plain_run (b : Batcher) (s : SampleSet) (σ : state)
    (input0 expected0 : list F) (rest outs : list (list F)) :
  gradients_fit → batcher_inv σ (held b) →
  Inputs s = input0 :: rest → Outputs s = expected0 :: outs →
  (length rest ≤ length outs)%nat →
  ∃ σr σ0 a σ1 σ',
    match lastGradResult b with
    | Some g => Free g
    | None => mret tt
    end σ = Ret (tt, σr) ∧
    match lastGradRResult b with
    | Some g => FreeR g
    | None => mret tt
    end σr = Ret (tt, σ0) ∧
    fulfillRequest {| RV := None; Input := input0; Expected := expected0 |} σ0
      = Ret ({| RGrad := None; Grad := a |}, σ1) ∧
    batch None s b σ
      = Ret (((Some a, None),
              {| batchSize := batchSize b; reqChan := reqChan b;
                 respChan := respChan b; lastGradResult := Some a;
                 lastGradRResult := None |}), σ') ∧
    batcher_inv σ' [a] ∧
    store σ' !! a
      = Some (foldl gradient_add (sample_gradient input0 expected0)
                (zip_with sample_gradient rest outs)).
Proof.
  intros Hfit Hinv Hin Hout Hlen.
  destruct (batch_reclaims b σ Hinv) as (σr & σ0 & Hfree & HfreeR & Hinv0).
  destruct (fulfillRequest_plain σ0 [] input0 expected0 Hfit Hinv0)
    as (a & σ1 & Hrun & Ha & _ & Hinv1).
  destruct (batch_loop_plain (expected0 :: outs) rest 1 a
              (sample_gradient input0 expected0) σ1)
    as (σ' & Hloop & Hinv' & Hres); [done|lia|simpl; lia|done|done|].
  exists σr, σ0, a, σ1, σ'.
  split; [done|]. split; [done|]. split; [done|].
  split; [|by split].
  assert (batch_loop None (expected0 :: outs) (input0 :: rest) 0 None None σ0
          = Ret ((Some a, None), σ')) as Hloop0.
  { simpl.
    rewrite (bind_Ret (ret expected0) _ σ0 expected0 σ0 eq_refl).
    rewrite (bind_Ret _ _ _ _ _ Hrun). simpl.
    by rewrite (bind_Ret (mret (Some a, None)) _ σ1 (Some a, None) σ1 eq_refl). }
  unfold batch. rewrite Hin, Hout.
  rewrite (bind_Ret _ _ _ _ _ Hfree).
  rewrite (bind_Ret _ _ _ _ _ HfreeR).
  by rewrite (bind_Ret _ _ _ _ _ Hloop0).
Qed.

(** A batch over an empty sample set: the buffers of the last result are
    reclaimed and the loop does not run. *)
Lemma batch_no_samples_run (b : Batcher) (s : SampleSet) (σ : state) :
  batcher_inv σ (held b) → Inputs s = [] →
  ∃ σ',
    batch None s b σ
      = Ret (((None, None),
              {| batchSize := batchSize b; reqChan := reqChan b;
                 respChan := respChan b; lastGradResult := None;
                 lastGradRResult := None |}), σ') ∧
    batcher_inv σ' [] ∧ store σ' = store σ ∧
    ∀ a, lastGradResult b = Some a →
         gradients (cache σ') = gradients (cache σ) ++ [a].
Proof.
  intros Hinv Hin.
  destruct (batch_reclaims b σ Hinv) as (σr & σ0 & Hfree & HfreeR & Hinv0).
  exists σ0. split.
  { unfold batch. rewrite Hin.
    rewrite (bind_Ret _ _ _ _ _ Hfree).
    rewrite (bind_Ret _ _ _ _ _ HfreeR). simpl. done. }
  split; [done|].
  assert (store σ0 = store σ) as Hstore.
  { revert Hfree HfreeR. destruct (lastGradResult b) as [g|].
    - rewrite (Free_spec σ g (bi_lock _ _ Hinv)). intros [= <-].
      destruct (lastGradRResult b) as [g'|].
      + rewrite FreeR_spec by apply (bi_rlock _ _ Hinv). by intros [= <-].
      + by intros [= <-].
    - intros [= <-]. destruct (lastGradRResult b) as [g'|].
      + rewrite FreeR_spec by apply (bi_rlock _ _ Hinv). by intros [= <-].
      + by intros [= <-]. }
  split; [done|].
  intros a Ha.
  by destruct (batch_reclaims_held b σ a Hinv Ha σr σ0 Hfree HfreeR).
Qed.

(** An empty sample set: [BatchGradient] returns no gradient, forgets the
    last result and leaves its buffer in the pool. *)
Theorem BatchGradient_no_samples (b : Batcher) (s : SampleSet) (σ : state) :
  batcher_inv σ (held b) → Inputs s = [] →
  ∃ b' σ',
    BatchGradient s b σ = Ret ((None, b'), σ') ∧
    lastGradResult b' = None ∧ lastGradRResult b' = None ∧
    batcher_inv σ' [] ∧ store σ' = store σ ∧
    ∀ a, lastGradResult b = Some a →
         gradients (cache σ') = gradients (cache σ) ++ [a].
Proof.
  intros Hinv Hin.
  destruct (batch_no_samples_run b s σ Hinv Hin)
    as (σ' & Hbatch & Hinv' & Hstore & Hpool).
  eexists _, σ'. split.
  { unfold BatchGradient. by rewrite (bind_Ret _ _ _ _ _ Hbatch). }
  split; [done|]. split; [done|]. split; [exact Hinv'|].
  split; [exact Hstore|exact Hpool].
Qed.

(** [BatchGradient] keeps the invariant, so that a Batcher without
    workers can be called again and again: for every sample set with an
    expected output for each input, it returns, with a gradient exactly
    when there is a sample, and leaves a state in which the next call can
    be made. *)
Theorem BatchGradient_keeps_invariant
    (b : Batcher) (s : SampleSet) (σ : state) :
  gradients_fit → batcher_inv σ (held b) →
  (length (Inputs s) ≤ length (Outputs s))%nat →
  ∃ r b' σ',
    BatchGradient s b σ = Ret ((r, b'), σ') ∧
    batcher_inv σ' (held b') ∧
    (r = None ↔ Inputs s = []) ∧
    lastGradResult b' = r ∧
    reqChan b' = reqChan b ∧ batchSize b' = batchSize b.
Proof.
  intros Hfit Hinv Hlen.
  destruct (Inputs s) as [|input0 rest] eqn:Hin.
  - destruct (batch_no_samples_run b s σ Hinv Hin)
      as (σ' & Hbatch & Hinv' & _).
    eexists None, _, σ'. split.
    { unfold BatchGradient. by rewrite (bind_Ret _ _ _ _ _ Hbatch). }
    split; [exact Hinv'|]. done.
  - destruct (Outputs s) as [|expected0 outs] eqn:Hout; [simpl in Hlen; lia|].
    destruct (batch_plain_run b s σ input0 expected0 rest outs)
      as (_ & _ & a & _ & σ' & _ & _ & _ & Hbatch & Hinv' & _);
      [done..|simpl in Hlen; lia|].
    eexists (Some a), _, σ'. split.
    { unfold BatchGradient. by rewrite (bind_Ret _ _ _ _ _ Hbatch). }
    split; [exact Hinv'|]. split; [by split|]. done.
Qed.


End BatchMore.

Section BatchPanics.
Context `{LearnerOps}.

(** One more sample: its gradient is added into the result buffer [a] and
    the loop goes on with the samples left. *)
Lemma batch_loop_next (outputs : list (list F)) (input expected : list F)
    (rest : list (list F)) (i : nat) (a : gloc) (acc : Gradient) (σ : state) :
  gradients_fit → (0 < i)%nat → outputs !! i = Some expected →
  batcher_inv σ [a] → store σ !! a = Some acc →
  ∃ σ2,
    batch_loop None outputs (input :: rest) i (Some a) None σ
    = batch_loop None outputs rest (Datatypes.S i) (Some a) None σ2 ∧
    batcher_inv σ2 [a] ∧
    store σ2 !! a = Some (gradient_add acc (sample_gradient input expected)).
Proof.
  intros Hfit Hi Hexp Hinv Hacc.
  destruct (batch_loop_plain outputs [input] i a acc σ)
    as (σ2 & Hone & Hinv2 & Hres); [done|done| |done|done|].
  { apply lookup_lt_Some in Hexp. simpl. lia. }
  exists σ2. split; [|split; [done|]].
  - destruct (fulfillRequest_plain σ [a] input expected Hfit Hinv)
      as (l & σ1 & Hrun & Hl & Hkeep & Hinv1).
    assert (store σ1 !! a = Some acc) as Hacc1.
    { rewrite Hkeep; [done|constructor]. }
    assert (∀ rest',
              batch_loop None outputs (input :: rest') i (Some a) None σ
              = batch_loop None outputs rest' (Datatypes.S i) (Some a) None
                  {| store := <[a := gradient_add acc
                                       (sample_gradient input expected)]>
                                (store σ1);
                     cache := set_gradients (gradients (cache σ1) ++ [l])
                                (cache σ1);
                     trace := trace σ1 ++ [Locked GradsLock;
                                           Unlocked GradsLock] |}) as Hstep.
    { intros rest'. simpl.
      rewrite (bind_Ret _ _ _ _ _ (lift_Some _ _ σ Hexp)).
      rewrite (bind_Ret _ _ _ _ _ Hrun). simpl.
      destruct (Nat.eqb_spec i 0) as [->|_]; [lia|].
      assert ((g ← lift (Some a);
               Gradient_Add g l;;
               Free l;;
               mret tt;;
               mret (Some a, @None gloc)) σ1
              = Ret ((Some a, None),
                     {| store := <[a := gradient_add acc
                                          (sample_gradient input expected)]>
                                   (store σ1);
                        cache := set_gradients (gradients (cache σ1) ++ [l])
                                   (cache σ1);
                        trace := trace σ1 ++ [Locked GradsLock;
                                              Unlocked GradsLock] |}))
        as Hchain.
      { rewrite (bind_Ret _ _ _ _ _ (lift_Some _ _ σ1 eq_refl)).
        rewrite (bind_Ret _ _ _ _ _ (Gradient_Add_Ret _ _ _ _ _ Hl Hacc1)).
        rewrite (bind_Ret _ _ _ _ _
                   (Free_spec (set_store _ σ1) l (bi_lock _ _ Hinv1))).
        done. }
      by rewrite (bind_Ret _ _ _ _ _ Hchain). }
    rewrite (Hstep []) in Hone. simpl in Hone. injection Hone as <-.
    apply Hstep.
  - rewrite Hres. by rewrite (drop_S _ _ _ Hexp).
Qed.

(** The loop panics at the first input that has no expected output. *)
Lemma batch_loop_short (outputs inputs : list (list F)) (i : nat)
    (a : gloc) (acc : Gradient) (σ : state) :
  gradients_fit → (0 < i)%nat →
  (i ≤ length outputs < i + length inputs)%nat →
  batcher_inv σ [a] → store σ !! a = Some acc →
  batch_loop None outputs inputs i (Some a) None σ = Panic.
Proof.
  intros Hfit. revert i acc σ.
  induction inputs as [|input rest IH]; intros i acc σ Hi Hlen Hinv Hacc.
  - simpl in Hlen. lia.
  - destruct (outputs !! i) as [expected|] eqn:Hexp.
    + destruct (batch_loop_next outputs input expected rest i a acc σ)
        as (σ2 & -> & Hinv2 & Hacc2); [done..|].
      apply lookup_lt_Some in Hexp.
      apply (IH (Datatypes.S i)
               (gradient_add acc (sample_gradient input expected)) σ2);
        [lia| |done|done].
      simpl in Hlen. lia.
    + simpl. by rewrite Hexp.
Qed.

(** A sample set with fewer expected outputs than inputs: [BatchGradient]
    panics, on the index [s.Outputs[i]], after computing the gradients of
    the samples before. *)
Theorem BatchGradient_missing_output_panics
    (b : Batcher) (s : SampleSet) (σ : state) :
  gradients_fit → batcher_inv σ (held b) →
  (length (Outputs s) < length (Inputs s))%nat →
  BatchGradient s b σ = Panic.
Proof.
  intros Hfit Hinv Hlen.
  destruct (batch_reclaims b σ Hinv) as (σr & σ0 & Hfree & HfreeR & Hinv0).
  assert (batch_loop None (Outputs s) (Inputs s) 0 None None σ0 = Panic)
    as Hloop.
  { destruct (Inputs s) as [|input0 rest]; [simpl in Hlen; lia|].
    destruct (Outputs s) as [|expected0 outs]; [done|].
    destruct (fulfillRequest_plain σ0 [] input0 expected0 Hfit Hinv0)
      as (a & σ1 & Hrun & Ha & _ & Hinv1).
    simpl.
    rewrite (bind_Ret (ret expected0) _ σ0 expected0 σ0 eq_refl).
    rewrite (bind_Ret _ _ _ _ _ Hrun). simpl.
    rewrite (bind_Ret (mret (Some a, None)) _ σ1 (Some a, None) σ1 eq_refl).
    apply (batch_loop_short _ _ 1 a (sample_gradient input0 expected0) σ1
             Hfit); [lia| |done|done].
    simpl in *. lia. }
  unfold BatchGradient, batch.
  apply bind_Panic.
  rewrite (bind_Ret _ _ _ _ _ Hfree).
  rewrite (bind_Ret _ _ _ _ _ HfreeR).
  by apply bind_Panic.
Qed.

End BatchPanics.

(** ** Batches with an R-vector *)

Section RGradientBatches.
Context `{LearnerOps}.

Lemma read_gradient_Ret (σ : state) (l : gloc) (g : Gradient) :
  store σ !! l = Some g → read_gradient l σ = Ret (g, σ).
Proof. intros Hg. unfold read_gradient. by rewrite Hg. Qed.

Lemma update_gradient_Ret (σ : state) (l : gloc) (g : Gradient)
    (f : Gradient → Gradient) :
  store σ !! l = Some g →
  update_gradient l f σ = Ret (tt, set_store (λ st, <[l := f g]> st) σ).
Proof. intros Hg. unfold update_gradient. by rewrite Hg. Qed.

(** With an empty plain pool and a non-empty R-gradient pool, [AllocR]
    panics. *)
Lemma AllocR_empty_plain_panics (σ : state) :
  rgradsLock (cache σ) = false → gradients (cache σ) = [] →
  rGradients (cache σ) ≠ [] → AllocR σ = Panic.
Proof.
  destruct σ as [st [gl rl vars gr rgr] tr]. simpl. intros -> -> Hne.
  unfold AllocR, Lock, mbind, M_bind, bind, gets. simpl.
  destruct (Z.eqb_spec (Z.of_nat (length rgr)) 0) as [Hz|_]; [|done].
  destruct rgr; [done|simpl in Hz; lia].
Qed.

(** A sample with an R-vector, both pools empty: two fresh buffers. *)
Lemma fulfillRequest_R_fresh (σ : state) (k : nat) (v : Gradient)
    (input expected : list F) :
  pools_are σ [] [] k →
  ∃ σ',
    fulfillRequest {| RV := Some v; Input := input; Expected := expected |} σ
      = Ret ({| RGrad := Some (Datatypes.S k); Grad := k |}, σ') ∧
    pools_are σ' [] [] (Datatypes.S (Datatypes.S k)).
Proof.
  intros (Hlock & Hrlock & Hpool & Hrpool & Hlen).
  unfold fulfillRequest.
  rewrite (bind_Ret _ _ _ _ _ (Alloc_fresh σ Hlock Hpool)). simpl.
  erewrite bind_Ret; [|by apply AllocR_fresh]. simpl.
  rewrite length_app. simpl. rewrite !Hlen.
  replace (k + 1)%nat with (Datatypes.S k) by lia.
  erewrite bind_Ret; cycle 1.
  { apply read_gradient_Ret. simpl.
    rewrite <- Hlen at 1.
    replace (Datatypes.S (length (store σ)))
      with (length (store σ ++ [zero_gradient (variables (cache σ))]))
      by (rewrite length_app; simpl; lia).
    apply list_lookup_middle. done. }
  erewrite bind_Ret; cycle 1.
  { apply read_gradient_Ret. simpl. rewrite <- Hlen.
    rewrite lookup_app_l by (rewrite length_app; simpl; lia).
    by apply list_lookup_middle. }
  destruct (PropagateRGradient v input expected _ _) as [rg' g'].
  erewrite bind_Ret; cycle 1.
  { apply update_gradient_Ret. simpl.
    rewrite <- Hlen at 1.
    replace (Datatypes.S (length (store σ)))
      with (length (store σ ++ [zero_gradient (variables (cache σ))]))
      by (rewrite length_app; simpl; lia).
    apply list_lookup_middle. done. }
  erewrite bind_Ret; cycle 1.
  { apply update_gradient_Ret. simpl. rewrite <- Hlen.
    rewrite list_lookup_insert_ne by lia.
    rewrite lookup_app_l by (rewrite length_app; simpl; lia).
    by apply list_lookup_middle. }
  eexists. split; [done|].
  repeat split; simpl; try done.
  rewrite !length_insert, !length_app. simpl. lia.
Qed.

(** A sample with an R-vector, one buffer in the plain pool and some in
    the R-gradient pool: [Alloc] empties the plain pool and [AllocR]
    panics. *)
Lemma fulfillRequest_R_panics (σ : state) (l : gloc) (rpool : list gloc)
    (k : nat) (v : Gradient) (input expected : list F) :
  pools_are σ [l] rpool k → (l < k)%nat → rpool ≠ [] →
  fulfillRequest {| RV := Some v; Input := input; Expected := expected |} σ
  = Panic.
Proof.
  intros (Hlock & Hrlock & Hpool & Hrpool & Hlen) Hl Hne.
  destruct (lookup_lt_is_Some_2 (store σ) l) as [g Hg]; [lia|].
  unfold fulfillRequest.
  rewrite (bind_Ret _ _ _ _ _ (Alloc_reuse σ [] l g Hlock Hpool Hg)). simpl.
  apply bind_Panic. apply AllocR_empty_plain_panics; simpl.
  - by destruct (cache σ).
  - by destruct (cache σ).
  - destruct (cache σ). simpl in *. by subst.
Qed.

Lemma Gradient_Add_defined (σ : state) (l l1 : gloc) :
  (l < length (store σ))%nat → (l1 < length (store σ))%nat →
  ∃ σ', Gradient_Add l l1 σ = Ret (tt, σ') ∧
        cache σ' = cache σ ∧ length (store σ') = length (store σ).
Proof.
  intros Hl Hl1.
  destruct (lookup_lt_is_Some_2 (store σ) l Hl) as [g Hg].
  destruct (lookup_lt_is_Some_2 (store σ) l1 Hl1) as [g1 Hg1].
  rewrite (Gradient_Add_Ret σ l l1 g g1 Hg1 Hg).
  eexists. split; [done|]. simpl. by rewrite length_insert.
Qed.

(** The second sample with an R-vector: both of its buffers are added
    into the first sample's and go to the pools, one each. *)
Lemma accumulate_R (σ : state) (k a ra l rl : gloc) :
  pools_are σ [] [] k →
  (a < k)%nat → (ra < k)%nat → (l < k)%nat → (rl < k)%nat →
  ∃ σ',
    (g ← lift (Some a);
     Gradient_Add g l;;
     Free l;;
     (r ← lift (Some rl);
      Gradient_Add ra r;;
      FreeR r);;
     mret (Some a, Some ra)) σ = Ret ((Some a, Some ra), σ') ∧
    pools_are σ' [l] [rl] k.
Proof.
  intros (Hlock & Hrlock & Hpool & Hrpool & Hlen) Ha Hra Hl Hrl.
  rewrite (bind_Ret _ _ _ _ _ (lift_Some _ _ σ eq_refl)).
  destruct (Gradient_Add_defined σ a l) as (σ1 & Hadd & Hc1 & Hlen1);
    [lia..|].
  rewrite (bind_Ret _ _ _ _ _ Hadd).
  rewrite (bind_Ret _ _ _ _ _
             (Free_spec σ1 l ltac:(by rewrite Hc1))).
  set (σ2 := {| store := store σ1;
                cache := set_gradients (gradients (cache σ1) ++ [l])
                           (cache σ1);
                trace := trace σ1 ++ [Locked GradsLock; Unlocked GradsLock] |}).
  destruct (Gradient_Add_defined σ2 ra rl) as (σ3 & Hadd3 & Hc3 & Hlen3);
    [simpl; lia..|].
  assert ((r ← lift (Some rl); Gradient_Add ra r;; FreeR r) σ2
          = Ret (tt, {| store := store σ3;
                        cache := set_rGradients (rGradients (cache σ3) ++ [rl])
                                   (cache σ3);
                        trace := trace σ3 ++ [Locked RGradsLock;
                                              Unlocked RGradsLock] |}))
    as Hr.
  { rewrite (bind_Ret _ _ _ _ _ (lift_Some _ _ σ2 eq_refl)).
    rewrite (bind_Ret _ _ _ _ _ Hadd3).
    apply FreeR_spec. rewrite Hc3. simpl. rewrite Hc1.
    by destruct (cache σ). }
  rewrite (bind_Ret _ _ _ _ _ Hr).
  eexists. split; [done|].
  unfold pools_are. simpl. rewrite Hc3. simpl. rewrite Hc1, Hlen3. simpl.
  rewrite Hlen1. destruct (cache σ). simpl in *. subst. done.
Qed.

(** On a new Batcher without workers, [BatchRGradient] panics for every
    sample set of three or more inputs.  If no expected output is missing
    before, the third sample finds the plain pool emptied by its own
    [Alloc] and one buffer in the R-gradient pool, and [AllocR] indexes
    that pool with -1. *)
Theorem BatchRGradient_three_inputs_panics
    (n : Z) (v : Gradient) (s : SampleSet) :
  (3 ≤ length (Inputs s))%nat →
  BatchRGradient (Some v) s (fst (NewBatcher n)) (snd (NewBatcher n)) = Panic.
Proof.
  intros Hlen. unfold BatchRGradient, batch. simpl.
  rewrite (bind_Ret (mret tt) _ _ tt _ eq_refl).
  rewrite (bind_Ret (mret tt) _ _ tt _ eq_refl).
  apply bind_Panic.
  destruct (Inputs s) as [|i0 [|i1 [|i2 rest]]]; simpl in Hlen; try lia.
  set (σ0 := {| store := []; cache := newGradientCache Parameters;
                trace := [] |}).
  assert (pools_are σ0 [] [] 0%nat) as Hs0 by done.
  destruct (Outputs s) as [|o0 outs]; [done|].
  destruct (fulfillRequest_R_fresh σ0 0%nat v i0 o0 Hs0) as (σ1 & Hrun1 & H1).
  simpl.
  rewrite (bind_Ret (ret o0) _ σ0 o0 σ0 eq_refl).
  rewrite (bind_Ret _ _ _ _ _ Hrun1). simpl.
  rewrite (bind_Ret (mret (Some 0%nat, Some 1%nat)) _ σ1
             (Some 0%nat, Some 1%nat) σ1 eq_refl).
  destruct outs as [|o1 outs]; [done|].
  destruct (fulfillRequest_R_fresh σ1 2%nat v i1 o1 H1) as (σ2 & Hrun2 & H2).
  simpl.
  rewrite (bind_Ret (ret o1) _ σ1 o1 σ1 eq_refl).
  rewrite (bind_Ret _ _ _ _ _ Hrun2). simpl.
  destruct (accumulate_R σ2 4%nat 0%nat 1%nat 2%nat 3%nat H2)
    as (σ3 & Hacc & H3); [lia..|].
  rewrite (bind_Ret _ _ _ _ _ Hacc).
  destruct outs as [|o2 outs]; [done|].
  simpl.
  rewrite (bind_Ret (ret o2) _ σ3 o2 σ3 eq_refl).
  apply bind_Panic.
  by apply (fulfillRequest_R_panics σ3 2%nat [3%nat] 4%nat); [|lia|].
Qed.

End RGradientBatches.

Lemma MiniLearner_gradients_fit : @gradients_fit Z_float MiniLearner.ops.
Proof. intros input expected. reflexivity. Qed.

Lemma BatchGradient_no_samples_example :
  ∃ (b' : Batcher) (σ' : @state Z_float),
    @BatchGradient Z_float MiniLearner.ops MiniLearner.no_samples
      (fst (@NewBatcher Z_float MiniLearner.ops 3))
      (snd (@NewBatcher Z_float MiniLearner.ops 3)) = Ret ((None, b'), σ') ∧
    lastGradResult b' = None.
Proof.
  destruct (@BatchGradient_no_samples Z_float MiniLearner.ops
              (fst (@NewBatcher Z_float MiniLearner.ops 3))
              MiniLearner.no_samples
              (snd (@NewBatcher Z_float MiniLearner.ops 3)))
    as (b' & σ' & Hrun & Hlast & _).
  - apply NewBatcher_inv.
  - reflexivity.
  - by exists b', σ'.
Defined.

Lemma BatchGradient_keeps_invariant_example :
  ∃ (r : option gloc) (b' : Batcher) (σ' : @state Z_float),
    @BatchGradient Z_float MiniLearner.ops MiniLearner.samples
      (fst (@NewBatcher Z_float MiniLearner.ops 3))
      (snd (@NewBatcher Z_float MiniLearner.ops 3)) = Ret ((r, b'), σ') ∧
    @batcher_inv Z_float MiniLearner.ops σ' (held b').
Proof.
  destruct (@BatchGradient_keeps_invariant Z_float MiniLearner.ops
              (fst (@NewBatcher Z_float MiniLearner.ops 3))
              MiniLearner.samples
              (snd (@NewBatcher Z_float MiniLearner.ops 3)))
    as (r & b' & σ' & Hrun & Hinv & _).
  - apply MiniLearner_gradients_fit.
  - apply NewBatcher_inv.
  - simpl. lia.
  - by exists r, b', σ'.
Defined.


Lemma BatchGradient_missing_output_panics_example :
  @BatchGradient Z_float MiniLearner.ops MiniLearner.short_samples
    (fst (@NewBatcher Z_float MiniLearner.ops 3))
    (snd (@NewBatcher Z_float MiniLearner.ops 3)) = Panic.
Proof.
  apply (@BatchGradient_missing_output_panics Z_float MiniLearner.ops).
  - apply MiniLearner_gradients_fit.
  - apply NewBatcher_inv.
  - simpl. lia.
Defined.

Lemma BatchRGradient_three_inputs_panics_example :
  @BatchRGradient Z_float MiniLearner.ops (Some [[1; 1]; [1]])
    MiniLearner.samples
    (fst (@NewBatcher Z_float MiniLearner.ops 3))
    (snd (@NewBatcher Z_float MiniLearner.ops 3)) = Panic.
Proof.
  apply (@BatchRGradient_three_inputs_panics Z_float MiniLearner.ops).
  simpl. lia.
Defined.

(** ** More on the serialized form *)

Section SerializationMore.
Context `{ConvLayerOps}.

(** Decoding errors.  On fewer than four bytes [DeserializeConvGrowLayer]
    returns the error of [binary.Read], [io.EOF] on no bytes and
    [io.ErrUnexpectedEOF] otherwise, without calling the inner decoder;
    and an error of the inner decoder is returned as it is, whatever the
    stride field holds: the division comes after. *)
Theorem DeserializeConvGrowLayer_errors (data : list byte) (h : heap) :
  ((length data < 4)%nat →
   DeserializeConvGrowLayer data h
   = Ret (inl match data with [] => EOF | _ => ErrUnexpectedEOF end, h)) ∧
  (∀ s rest e h1,
     read_u32_le data = inr (s, rest) →
     DeserializeConvLayer rest h = Ret (inl e, h1) →
     DeserializeConvGrowLayer data h = Ret (inl e, h1)).
Proof.
  split.
  - intros Hlen. unfold DeserializeConvGrowLayer.
    destruct data as [|b0 [|b1 [|b2 [|b3 rest]]]]; simpl in *; try done. lia.
  - intros s rest e h1 Hread Hinner. unfold DeserializeConvGrowLayer.
    rewrite Hread. by rewrite (bind_Ret _ _ _ _ _ Hinner).
Qed.

(** The stride field.  When [Serialize] succeeds, its output is four bytes
    followed by the inner layer's bytes, and the four bytes read back as
    the inverse stride reduced modulo 2^32: a stride outside the range of
    a [uint32] is not preserved.  When the inner layer fails to serialize,
    so does the whole. *)
Theorem Serialize_stride_field (c : ConvGrowLayer) (h : heap) :
  (∀ bytes,
     Serialize c h = inr bytes →
     ∃ ib,
       ConvLayer_Serialize (convLayer c) h = inr ib ∧
       length bytes = (4 + length ib)%nat ∧
       read_u32_le bytes = inr (inverseStride c mod 2 ^ 32, ib)) ∧
  (∀ e, ConvLayer_Serialize (convLayer c) h = inl e → Serialize c h = inl e).
Proof.
  unfold Serialize. split.
  - intros bytes.
    destruct (ConvLayer_Serialize (convLayer c) h) as [e|ib]; [done|].
    intros [= <-]. exists ib. split; [done|]. split; [done|].
    apply read_put_u32_le. unfold GoInt.u32.
    apply Z.mod_pos_bound. lia.
  - by intros e ->.
Qed.

(** A stride whose square vanishes in [uint32]: when the stride field is a
    multiple of 65536, zero included, and the inner decoder accepts the
    rest, the division panics. *)
Theorem DeserializeConvGrowLayer_square_overflow_panics
    (data payload : list byte) (s : Z) (cl : ConvLayer.t) (h h1 : heap) :
  read_u32_le data = inr (s, payload) → s mod 65536 = 0 →
  DeserializeConvLayer payload h = Ret (inr cl, h1) →
  DeserializeConvGrowLayer data h = Panic.
Proof.
  intros Hread Hs Hinner. unfold DeserializeConvGrowLayer.
  rewrite Hread. rewrite (bind_Ret _ _ _ _ _ Hinner).
  apply bind_Panic.
  assert (GoInt.u32_mul s s = 0) as ->; [|done].
  unfold GoInt.u32_mul, GoInt.u32.
  apply Z.mod_divide in Hs as [k ->]; [|lia].
  replace (k * 65536 * (k * 65536)) with (k * k * 2 ^ 32) by lia.
  apply Z.mod_mul. lia.
Qed.

End SerializationMore.

Lemma DeserializeConvGrowLayer_errors_example :
  @DeserializeConvGrowLayer Z_float MiniConv.ops [x02; x00] []
    = Ret (inl ErrUnexpectedEOF, []) ∧
  @DeserializeConvGrowLayer Z_float MiniConv.ops
    [x00; x00; x00; x00; x04] [] = Ret (inl (ErrConvLayer 0), []).
Proof.
  destruct (@DeserializeConvGrowLayer_errors Z_float MiniConv.ops
              [x02; x00] []) as [Hshort _].
  destruct (@DeserializeConvGrowLayer_errors Z_float MiniConv.ops
              [x00; x00; x00; x00; x04] []) as [_ Hinner].
  split.
  - apply Hshort. simpl. lia.
  - by apply (Hinner 0 [x04]).
Defined.

Lemma Serialize_stride_field_example :
  ∃ ib,
    @ConvLayer_Serialize Z_float MiniConv.ops (convLayer example_layer)
      example_heap = inr ib ∧
    read_u32_le (put_u32_le 2 ++ ib) = inr (2 mod 2 ^ 32, ib).
Proof.
  destruct (@Serialize_stride_field Z_float MiniConv.ops example_layer
              example_heap) as [Hok _].
  destruct (Hok (put_u32_le 2 ++ put_u32_le 4 ++ put_u32_le 2 ++ put_u32_le 2)
              eq_refl) as (ib & Hib & _ & Hread).
  exists ib. split; [exact Hib|].
  injection Hib as <-. exact Hread.
Defined.

Lemma DeserializeConvGrowLayer_square_overflow_example :
  @DeserializeConvGrowLayer Z_float MiniConv.ops
    ([x00; x00; x03; x00] ++ put_u32_le 0 ++ put_u32_le 1 ++ put_u32_le 1)
    [] = Panic.
Proof.
  eapply (@DeserializeConvGrowLayer_square_overflow_panics
            Z_float MiniConv.ops _ _ 196608); reflexivity.
Defined.

(** ** More on the two passes *)

Section PassesMore.
Context `{ConvLayerOps}.

(** The forward pass writes the output and nothing else: after the inner
    layer's pass, every other array, the inner output among them, is left
    as it was, and the output keeps its length. *)
Theorem PropagateForward_writes_only_output
    (c : ConvGrowLayer) (h h1 : heap) (cl : ConvLayer.t) :
  ConvLayer_PropagateForward (convLayer c) h = Ret (cl, h1) →
  ConvGrow_wf h1 (with_convLayer c cl) →
  ∃ h2,
    PropagateForward c h = Ret (with_convLayer c cl, h2) ∧
    (∀ l, l ≠ Data (output c) → slice_data h2 l = slice_data h1 l) ∧
    slice_len h2 (Data (output c)) = slice_len h1 (Data (output c)) ∧
    ConvGrow_wf h2 (with_convLayer c cl).
Proof.
  intros Hinner Hwf.
  destruct (remap_forward_spec h1 _ Hwf) as (h2 & Hrun & Hinv).
  exists h2. split.
  { unfold PropagateForward. rewrite (bind_Ret _ _ _ _ _ Hinner).
    by rewrite (bind_Ret _ _ _ _ _ Hrun). }
  pose proof (forward_inv_wf _ _ _ _ Hwf Hinv) as Hwf2.
  destruct Hinv as (Hother & Hlen & _). simpl in *.
  split; [done|]. split; [|done].
  unfold slice_len. by rewrite Hlen.
Qed.


Lemma for_range_first {S} (hi : Z) (body : Z → M S unit) (s : S) :
  0 < hi →
  for_range hi body s
  = (body 0;; for_upto (Z.to_nat hi - 1) (0 + 1) body) s.
Proof.
  intros Hhi. unfold for_range.
  destruct (Z.to_nat hi) as [|n] eqn:Hn; [lia|].
  simpl. by rewrite Nat.sub_0_r.
Qed.

(** Before a downstream gradient is set, the backward pass panics: on a
    layer with a non-empty output, the first element read goes through the
    nil [c.downstream]. *)
Theorem PropagateBackward_without_downstream_panics
    (upstream : bool) (c : ConvGrowLayer) (h : heap) :
  downstream c = None → inverseStride c ≠ 0 →
  0 < Width (output c) → 0 < Height (output c) → 0 < Depth (output c) →
  PropagateBackward upstream c h = Panic.
Proof.
  intros Hnil Hs HW HH HD. unfold PropagateBackward.
  apply bind_Panic. unfold scatter_backward.
  rewrite for_range_first by done. apply bind_Panic.
  destruct (quot_defined 0 (inverseStride c) Hs) as [iy Hiy].
  rewrite (bind_Ret _ _ _ _ _ (lift_Some _ _ h Hiy)).
  rewrite for_range_first by done. apply bind_Panic.
  rewrite (bind_Ret _ _ _ _ _ (lift_Some _ _ h Hiy)).
  destruct (rem_defined 0 (inverseStride c) Hs) as [m Hm].
  rewrite (bind_Ret _ _ _ _ _ (lift_Some _ _ h Hm)).
  rewrite (bind_Ret _ _ _ _ _ (lift_Some _ _ h Hm)).
  rewrite for_range_first by done. apply bind_Panic.
  by rewrite Hnil.
Qed.

(** A buffer of the right length that is not the inner gradient buffer,
    once set, makes the backward pass run: [SetDownstreamGradient] answers
    [true], and the scatter loops then return with every value of the
    buffer at its inner coordinate. *)
Theorem SetDownstreamGradient_then_scatter
    (c : ConvGrowLayer) (v : loc) (h : heap) :
  ConvGrow_wf h c →
  tensor_wf h (convDownstream c) →
  same_shape (convDownstream c) (ConvLayer.output (convLayer c)) →
  Data (convDownstream c) ≠ Data (output c) →
  Data (convDownstream c) ≠ v →
  slice_len h v = slice_len h (Data (output c)) →
  ∃ c' ds h',
    SetDownstreamGradient c v h = Ret ((true, c'), h) ∧
    downstream c' = Some ds ∧ Data ds = v ∧ DownstreamGradient c' = Some v ∧
    scatter_backward c' h = Ret (tt, h') ∧
    ∀ p, valid_coord (output c) p →
         is_Some (tensor_at h ds p) ∧
         tensor_at h' (convDownstream c)
           (inner_coord (inverseStride c) (Depth (output c)) p)
         = tensor_at h ds p.
Proof.
  intros Hwf Hcd Hcsh Hsepo Hsepv Hlen.
  pose proof Hwf as [Hout Hinn Hsh Hsep].
  set (ds := {| Width := Width (output c); Height := Height (output c);
                Depth := Depth (output c); Data := v |}).
  set (c' := {| output := output c; downstream := Some ds;
                convLayer := convLayer c; convDownstream := convDownstream c;
                inverseStride := inverseStride c |}).
  assert (tensor_wf h ds) as Hds.
  { destruct Hout as [HW HH HD Hl Hint]. split; simpl; try done.
    by rewrite Hlen. }
  assert (ConvGrow_wf h c') as Hwf' by (by split).
  assert (ConvGrow_backward_wf h c' ds) as Hbwf by (by split).
  destruct (scatter_backward_spec h c' ds Hwf' Hbwf) as (h' & Hrun & Hinv).
  exists c', ds, h'. split.
  { unfold SetDownstreamGradient. by rewrite Hlen, Z.eqb_refl. }
  split; [done|]. split; [done|]. split; [done|]. split; [done|].
  intros p Hp. split.
  - by apply tensor_at_is_Some.
  - destruct Hinv as (_ & _ & Hdone). apply (Hdone p Hp).
    pose proof (flat_pos_bound _ _ (proj1 (wf_width _ _ Hout))
                  (proj1 (wf_height _ _ Hout))
                  (proj1 (wf_depth _ _ Hout)) Hp).
    simpl. lia.
Qed.

End PassesMore.

(** ** More on construction *)

Section ConstructionMore.
Context `{ConvLayerOps}.

Lemma size_go (w h d : Z) :
  0 ≤ w ≤ GoInt.max_int → 0 ≤ h ≤ GoInt.max_int → 0 ≤ d ≤ GoInt.max_int →
  w * h * d ≤ GoInt.max_int →
  GoInt.mul (GoInt.mul w h) d = w * h * d.
Proof.
  intros Hw Hh Hd Hint. unfold GoInt.max_int in *.
  destruct (decide (d = 0)) as [->|Hd0].
  - unfold GoInt.mul at 1. by rewrite !Z.mul_0_r.
  - assert (0 ≤ w * h ≤ w * h * d) by nia.
    rewrite (mul_id w)
      by (unfold GoInt.in_range, GoInt.min_int, GoInt.max_int; lia).
    rewrite mul_id
      by (unfold GoInt.in_range, GoInt.min_int, GoInt.max_int; lia).
    done.
Qed.

(** [NewConvGrowLayer] establishes the invariant the passes rely on.  Let
    the stride be at least 1 and the filter count not negative, let
    [NewConvLayer] return an inner layer with a well-formed, allocated
    output of [s*s*FilterCount] channels, and let the upsampled dimensions
    and their product be [int]s.  Then the layer built is well formed,
    with a well-formed inner gradient buffer in storage of its own and no
    downstream gradient yet, and the copy loops of its forward pass
    return. *)
Theorem NewConvGrowLayer_well_formed
    (p : ConvGrowParams ConvConfig) (h h1 : heap) (cl : ConvLayer.t) :
  let s := InverseStride p in
  let fc := FilterCount (convParams p) in
  let iw := Width (ConvLayer.output cl) in
  let ih := Height (ConvLayer.output cl) in
  1 ≤ s → 0 ≤ fc →
  NewConvLayer {| FilterCount := GoInt.mul fc (GoInt.mul s s);
                  convConfig := convConfig (convParams p) |} h
    = Ret (cl, h1) →
  tensor_wf h1 (ConvLayer.output cl) →
  (Data (ConvLayer.output cl) < length h1)%nat →
  Depth (ConvLayer.output cl) = s * s * fc →
  iw * s ≤ GoInt.max_int → ih * s ≤ GoInt.max_int →
  (iw * s) * (ih * s) * fc ≤ GoInt.max_int →
  ∃ c h2,
    NewConvGrowLayer p h = Ret (c, h2) ∧
    ConvGrow_wf h2 c ∧
    tensor_wf h2 (convDownstream c) ∧
    same_shape (convDownstream c) (ConvLayer.output (convLayer c)) ∧
    Data (convDownstream c) ≠ Data (output c) ∧
    downstream c = None ∧
    ∃ h3, remap_forward c h2 = Ret (tt, h3).
Proof.
  intros s fc iw ih Hs Hfc Hnew Hwf Halloc Hdepth HW HH Hsize.
  unfold NewConvGrowLayer. fold s. fold fc.
  rewrite (bind_Ret _ _ _ _ _ Hnew).
  pose proof Hwf as [HiW HiH HiD Hilen Hiint].
  pose proof (tensor_size_go h1 _ Hwf) as Hgo.
  unfold iw, ih in *. clear iw ih.
  set (iw := Width (ConvLayer.output cl)) in *.
  set (ih := Height (ConvLayer.output cl)) in *.
  assert (fc ≤ GoInt.max_int) as Hfcmax.
  { rewrite Hdepth in HiD.
    assert (1 ≤ s * s) by nia.
    assert (fc * 1 ≤ fc * (s * s)) by (apply Z.mul_le_mono_nonneg_l; lia).
    lia. }
  assert (GoInt.mul iw s = iw * s) as HmW.
  { apply mul_id. unfold GoInt.in_range, GoInt.min_int, GoInt.max_int in *.
    nia. }
  assert (GoInt.mul ih s = ih * s) as HmH.
  { apply mul_id. unfold GoInt.in_range, GoInt.min_int, GoInt.max_int in *.
    nia. }
  assert (GoInt.mul (GoInt.mul (iw * s) (ih * s)) fc
          = iw * s * (ih * s) * fc) as Hout.
  { apply size_go; [nia|nia|lia|done]. }
  rewrite HmW, HmH.
  rewrite NewTensor3_Ret' by (rewrite Hout; nia).
  rewrite NewTensor3_Ret'
    by (rewrite Hgo, <- Hilen; unfold slice_len; lia).
  unfold ConvLayer.SetDownstreamGradient at 1.
  unfold mbind at 1, M_bind at 1, bind at 1.
  set (out_data := replicate (Z.to_nat (GoInt.mul (GoInt.mul (iw * s) (ih * s)) fc))
                     fzero).
  set (cd_data :=
         replicate
           (Z.to_nat
              (GoInt.mul (GoInt.mul iw ih) (Depth (ConvLayer.output cl))))
           fzero).
  assert (length (h1 ++ [out_data]) = Datatypes.S (length h1)) as Hl1.
  { rewrite length_app. simpl. lia. }
  rewrite !Hl1.
  set (h2 := (h1 ++ [out_data]) ++ [cd_data]).
  assert (slice_len h2 (length h1) = iw * s * (ih * s) * fc) as Hlout.
  { unfold h2. rewrite slice_len_app_l by lia.
    rewrite slice_len_fresh. unfold out_data. rewrite length_replicate.
    rewrite Hout. nia. }
  assert (slice_len h2 (Datatypes.S (length h1))
          = iw * ih * Depth (ConvLayer.output cl)) as Hlcd.
  { unfold h2. rewrite <- Hl1. rewrite slice_len_fresh.
    unfold cd_data. rewrite length_replicate.
    rewrite Hgo. rewrite <- Hilen.
    unfold slice_len. lia. }
  assert (slice_len h2 (Data (ConvLayer.output cl))
          = iw * ih * Depth (ConvLayer.output cl)) as Hlin.
  { unfold h2. rewrite slice_len_app_l by lia.
    rewrite slice_len_app_l by done. done. }
  cbv beta. cbn [Data]. fold h2. rewrite Hlcd, Hlin, Z.eqb_refl. simpl.
  set (c := {| output := {| Width := iw * s; Height := ih * s; Depth := fc;
                            Data := length h1 |};
               downstream := None;
               convLayer :=
                 {| ConvLayer.filters := ConvLayer.filters cl;
                    ConvLayer.output := ConvLayer.output cl;
                    ConvLayer.downstreamGradient :=
                      Some {| Width := iw; Height := ih;
                              Depth := Depth (ConvLayer.output cl);
                              Data := Datatypes.S (length h1) |} |};
               convDownstream :=
                 {| Width := iw; Height := ih;
                    Depth := Depth (ConvLayer.output cl);
                    Data := Datatypes.S (length h1) |};
               inverseStride := s |}).
  assert (ConvGrow_wf h2 c) as Hcwf.
  { split; simpl.
    - split; simpl; [nia|nia|lia|done|done].
    - split; simpl; try done.
    - split; simpl; try done.
    - lia. }
  destruct (remap_forward_spec h2 c Hcwf) as (h3 & Hrun & _).
  exists c, h2. split; [done|].
  split; [done|]. split; [by split|]. split; [done|].
  split; [simpl; lia|]. split; [done|]. by exists h3.
Qed.


End ConstructionMore.

Lemma example_layer_wf : @ConvGrow_wf Z_float example_heap example_layer.
Proof.
  split; [split; simpl; unfold GoInt.max_int; try lia; reflexivity ..
         | split; simpl; lia | simpl; lia].
Qed.


Lemma PropagateForward_writes_only_output_example :
  ∃ h2 : list (list Z),
    @PropagateForward Z_float MiniConv.ops example_layer example_heap
      = Ret (example_layer, h2) ∧
    @slice_data Z_float h2 1%nat = @slice_data Z_float example_heap 1%nat.
Proof.
  destruct (@PropagateForward_writes_only_output Z_float MiniConv.ops
              example_layer example_heap example_heap
              (convLayer example_layer) eq_refl example_layer_wf)
    as (h2 & Hrun & Hother & _).
  exists h2. split; [exact Hrun|]. apply Hother. simpl. lia.
Defined.


Lemma PropagateBackward_without_downstream_panics_example :
  @PropagateBackward Z_float MiniConv.ops true example_layer example_heap
    = Panic.
Proof.
  apply (@PropagateBackward_without_downstream_panics Z_float MiniConv.ops);
    simpl; try reflexivity; lia.
Defined.

Lemma SetDownstreamGradient_then_scatter_example :
  ∃ (c' : ConvGrowLayer) (h' : list (list Z)),
    @SetDownstreamGradient Z_float example_layer 3%nat example_backward_heap
      = Ret ((true, c'), example_backward_heap) ∧
    @scatter_backward Z_float c' example_backward_heap = Ret (tt, h').
Proof.
  destruct (@SetDownstreamGradient_then_scatter Z_float example_layer 3%nat
              example_backward_heap)
    as (c' & ds & h' & Hset & _ & _ & _ & Hrun & _).
  - split; [split; simpl; unfold GoInt.max_int; try lia; reflexivity ..
           | split; simpl; lia | simpl; lia].
  - split; simpl; unfold GoInt.max_int; try lia; reflexivity.
  - repeat split.
  - simpl. lia.
  - simpl. lia.
  - reflexivity.
  - by exists c', h'.
Defined.

Lemma NewConvGrowLayer_well_formed_example :
  ∃ (c : ConvGrowLayer) (h2 : list (list Z)),
    @NewConvGrowLayer Z_float MiniConv.ops
      {| convParams := {| FilterCount := 1; convConfig := (2, 2) |};
         InverseStride := 2 |} [] = Ret (c, h2) ∧
    @ConvGrow_wf Z_float h2 c.
Proof.
  destruct (@NewConvGrowLayer_well_formed Z_float MiniConv.ops
              {| convParams := {| FilterCount := 1; convConfig := (2, 2) |};
                 InverseStride := 2 |} [] [replicate 16 0]
              {| ConvLayer.filters := replicate 4 MiniConv.filter;
                 ConvLayer.output :=
                   {| Width := 2; Height := 2; Depth := 4; Data := 0%nat |};
                 ConvLayer.downstreamGradient := None |})
    as (c & h2 & Hrun & Hwf & _).
  - simpl. lia.
  - simpl. lia.
  - reflexivity.
  - split; simpl; unfold GoInt.max_int; try lia; reflexivity.
  - simpl. lia.
  - reflexivity.
  - simpl. unfold GoInt.max_int. lia.
  - simpl. unfold GoInt.max_int. lia.
  - simpl. unfold GoInt.max_int. lia.
  - by exists c, h2.
Defined.

